(** * AUTOEDIT: interval algebra, filter-graph compiler, silence parser

    A shallow embedding of [app/services/editing.py] ([_coalesce_ranges],
    [_invert_ranges], [auto_edit_video]) and of the parsing loop of
    [app/utils/silence.py] ([detect_silence_intervals]), followed by the
    properties of the specification that concern them.

    Times are Python floats in the source.  They are modelled as exact
    rationals ([Q]): comparisons, [max] and the single addition
    [last['end'] + eps] are the rational ones, so rounding, infinities and
    NaN are outside the model.

    The interval dicts handled by [_coalesce_ranges] are shared, mutable
    Python objects.  They live in an object store ([heap]) and lists hold
    references ([loc]) into it, so that the in-place update
    [last['end'] = ...] is visible through every alias.

    What the process obtains from outside (the probed duration, the
    formatting of floats, the argument list built by ffmpeg-python, the
    exit code and standard error of the child process) is collected in an
    environment record; the external effects of an edit are logged in
    order.

    Layout: the embedding and the vocabulary of the properties first, then
    the lemmas on each function, then one theorem per claim. *)

From Stdlib Require Import QArith Lqa Ascii String.
From stdpp Require Import base option list gmap strings pretty sorting.

Local Open Scope Q_scope.

(** ** Floats as rationals: the comparisons the source uses *)

(** Python [a <= b]. *)
Definition fle (a b : Q) : bool := Qle_bool a b.
(** Python [a > b]. *)
Definition fgt (a b : Q) : bool := negb (Qle_bool a b).
(** Python [a < b]. *)
Definition flt (a b : Q) : bool := negb (Qle_bool b a).

(** Python [max(a, b)] on two arguments: the first maximal one is
    returned, so [b] wins only when [b > a]. *)
Definition pymax (a b : Q) : Q := if fgt b a then b else a.

(** ** Interval dicts and the object store *)

(** The dict [{'start': s, 'end': e}]. *)
Record Interval : Type := mkInterval { start : Q; end_ : Q }.

#[global] Instance Interval_inhabited : Inhabited Interval :=
  populate (mkInterval 0 0).

Definition loc := nat.
Abbreviation heap := (gmap nat Interval).

(** [r['start']], [r['end']] through a reference. *)
Definition get_start (h : heap) (r : loc) : Q := start (h !!! r).
Definition get_end (h : heap) (r : loc) : Q := end_ (h !!! r).

(** [r['end'] = v]: only the [end] key of the object is overwritten. *)
Definition set_end (h : heap) (r : loc) (v : Q) : heap :=
  <[r := mkInterval (get_start h r) v]> h.

(** The values a list of references currently denotes. *)
Definition deref (h : heap) (l : list loc) : list Interval :=
  map (fun r => h !!! r) l.

(** ** [_coalesce_ranges] *)

Module Coalesce.

(** [sorted(ranges, key=lambda r: r['start'])]: Python's sort is stable.
    The stable sort is written as a right fold of insertions; an element is
    put in front of the first element whose key is not smaller. *)
Fixpoint insert_by_start (h : heap) (r : loc) (l : list loc) : list loc :=
  match l with
  | [] => [r]
  | x :: l' =>
      if fle (get_start h r) (get_start h x) then r :: l
      else x :: insert_by_start h r l'
  end.

Definition sorted_by_start (h : heap) (ranges : list loc) : list loc :=
  foldr (insert_by_start h) [] ranges.

(** The [for r in ranges[1:]] loop.  [merged] is never empty there, so
    [merged[-1]] always exists; the [None] branch is unreachable. *)
Fixpoint loop (eps : Q) (h : heap) (merged rs : list loc) : heap * list loc :=
  match rs with
  | [] => (h, merged)
  | r :: rs' =>
      match last merged with
      | None => (h, merged)
      | Some lst =>
          if fle (get_start h r) (get_end h lst + eps) then
            loop eps (set_end h lst (pymax (get_end h lst) (get_end h r)))
                 merged rs'
          else
            loop eps h (merged ++ [r]) rs'
      end
  end.

End Coalesce.

(** The default [eps = 1e-3]. *)
Definition default_eps : Q := 1 # 1000.

Definition _coalesce_ranges (h : heap) (ranges : list loc) (eps : Q)
  : heap * list loc :=
  match ranges with
  | [] => (h, [])
  | _ :: _ =>
      match Coalesce.sorted_by_start h ranges with
      | [] => (h, [])
      | r0 :: rest => Coalesce.loop eps h [r0] rest
      end
  end.

(** ** [_invert_ranges] *)

(** The function only reads its argument and builds fresh dicts, so it is
    modelled on values. *)
Module Invert.

Fixpoint loop (keep : list Interval) (cur : Q) (remove : list Interval)
  : list Interval * Q :=
  match remove with
  | [] => (keep, cur)
  | r :: rs =>
      let keep' :=
        if fgt (start r) cur then keep ++ [mkInterval cur (start r)]
        else keep in
      loop keep' (pymax cur (end_ r)) rs
  end.

End Invert.

Definition _invert_ranges (remove : list Interval) (duration : Q)
  : list Interval :=
  let '(keep, cur) := Invert.loop [] 0 remove in
  if flt cur duration then keep ++ [mkInterval cur duration] else keep.

(** Allocation of a list of dicts at fresh consecutive addresses, used to
    build concrete stores. *)
Fixpoint alloc_from (n : nat) (vs : list Interval) (h : heap) : heap :=
  match vs with
  | [] => h
  | v :: vs' => alloc_from (S n) vs' (<[n := v]> h)
  end.

Definition store_of (vs : list Interval) : heap := alloc_from 0 vs ∅.

(** ** Exceptions, effects and the environment of [auto_edit_video] *)

Inductive exn : Type :=
  | ValueError (msg : string)
  | RuntimeError (msg : string).

(** The two places where the function reaches outside the process: the
    duration probe ([ffmpeg.probe], inside [_probe_duration]) and the
    encode subprocess ([asyncio.create_subprocess_exec]). *)
Inductive event : Type :=
  | EvProbe (path : string)
  | EvSubprocessExec (args : list string).

(** What the library and the operating system answer.  [float_str] is
    Python's formatting of a float inside an f-string, [get_args] is
    ffmpeg-python's [cmd.get_args()] for the command built from the input
    path, the output path and the filter graph, and [run_process] gives the
    return code and the decoded standard error of the child process. *)
Record Env : Type := mkEnv {
  probe_duration : string -> Q;
  float_str : Q -> string;
  get_args : string -> string -> string -> list string;
  run_process : list string -> Z * string
}.

(** A computation over the object store that logs its external effects in
    order and may raise. *)
Definition M (A : Type) : Type :=
  heap * list event -> (heap * list event) * (exn + A).

#[global] Instance M_ret : MRet M := fun A a st => (st, inr a).
#[global] Instance M_bind : MBind M := fun A B k m st =>
  match m st with
  | (st', inl e) => (st', inl e)
  | (st', inr a) => k a st'
  end.

Definition raise {A} (e : exn) : M A := fun st => (st, inl e).
Definition emit (ev : event) : M unit :=
  fun st => ((st.1, st.2 ++ [ev]), inr tt).

(** ** The filter-graph compiler (the string building of [auto_edit_video]) *)

Module FilterGraph.

Definition video_trim (fs : Q -> string) (idx : nat) (ss to : Q) : string :=
  "[0:v]trim=start=" +:+ fs ss +:+ ":end=" +:+ fs to
    +:+ ",setpts=PTS-STARTPTS[v" +:+ pretty idx +:+ "]".

Definition audio_trim (fs : Q -> string) (idx : nat) (ss to : Q) : string :=
  "[0:a]atrim=start=" +:+ fs ss +:+ ":end=" +:+ fs to
    +:+ ",asetpts=PTS-STARTPTS[a" +:+ pretty idx +:+ "]".

Definition concat_input (idx : nat) : string :=
  "[v" +:+ pretty idx +:+ "][a" +:+ pretty idx +:+ "]".

(** [ss = max(0.0, seg['start'])], [to = max(ss, seg['end'])]. *)
Definition trim_bounds (seg : Interval) : Q * Q :=
  let ss := pymax 0 (start seg) in
  let to := pymax ss (end_ seg) in
  (ss, to).

Record parts : Type := mkParts {
  vf_parts : list string;
  af_parts : list string;
  concat_inputs : list string
}.

(** [for idx, seg in enumerate(keep)]: three appends per segment. *)
Fixpoint parts_loop (fs : Q -> string) (idx : nat) (keep : list Interval)
    (acc : parts) : parts :=
  match keep with
  | [] => acc
  | seg :: rest =>
      let '(ss, to) := trim_bounds seg in
      parts_loop fs (S idx) rest
        (mkParts (vf_parts acc ++ [video_trim fs idx ss to])
                 (af_parts acc ++ [audio_trim fs idx ss to])
                 (concat_inputs acc ++ [concat_input idx]))
  end.

Definition build_parts (fs : Q -> string) (keep : list Interval) : parts :=
  parts_loop fs 0 keep (mkParts [] [] []).

(** The concat stage: every [[v{idx}][a{idx}]] pair, then
    [concat=n={concat_n}:v=1:a=1[v][a]]. *)
Definition concat_stage (p : parts) (concat_n : nat) : string :=
  String.concat "" (concat_inputs p)
    +:+ "concat=n=" +:+ pretty concat_n +:+ ":v=1:a=1[v][a]".

Definition color_chain (apply_color_grade : bool) : string :=
  if apply_color_grade
  then ",eq=contrast=1.1:brightness=0.02:saturation=1.1" else "".

(** [if overlay_text:] is false for [None] and for the empty string. *)
Definition overlay_chain (overlay_text : option string) : string :=
  match overlay_text with
  | Some (String c t) =>
      ",drawtext=text='" +:+ String c t +:+
      "':fontcolor=white:fontsize=24:x=(w-text_w)/2:y=50:box=1:boxcolor=black@0.4:boxborderw=10"
  | _ => ""
  end.

Definition an_chain (normalize_audio : bool) : string :=
  if normalize_audio then ",loudnorm=I=-16:TP=-1.5:LRA=11" else "".

Definition filter_complex (fs : Q -> string) (keep : list Interval)
    (apply_color_grade normalize_audio : bool) (overlay_text : option string)
  : string :=
  let p := build_parts fs keep in
  let vf := String.concat ";" (vf_parts p) in
  let af := String.concat ";" (af_parts p) in
  let concat_n := length keep in
  (vf +:+ ";" +:+ af +:+ ";") +:+
  (concat_stage p concat_n +:+ ";") +:+
  ("[v]format=yuv420p" +:+ color_chain apply_color_grade
     +:+ overlay_chain overlay_text +:+ "[vout];") +:+
  ("[a]anull" +:+ an_chain normalize_audio +:+ "[aout]").

End FilterGraph.

(** ** [auto_edit_video] *)

Definition nothing_to_keep : exn :=
  ValueError "Nothing to keep after removing segments".

Definition ffmpeg_failed (stderr : string) : exn :=
  RuntimeError ("ffmpeg failed: " +:+ stderr).

(** [await _probe_duration(input_path)]. *)
Definition _probe_duration (env : Env) (path : string) : M Q :=
  emit (EvProbe path) ;; mret (probe_duration env path).

(** [_coalesce_ranges(remove_segments)] run against the current store. *)
Definition coalesce (ranges : list loc) (eps : Q) : M (list loc) :=
  fun st =>
    let '(h', out) := _coalesce_ranges st.1 ranges eps in
    ((h', st.2), inr out).

(** [_invert_ranges(remove, duration)]: reads the dicts behind [remove]. *)
Definition invert (remove : list loc) (duration : Q) : M (list Interval) :=
  fun st => (st, inr (_invert_ranges (deref st.1 remove) duration)).

(** [asyncio.create_subprocess_exec] on the argument list, followed by
    [proc.communicate()]: the return code and the decoded stderr. *)
Definition subprocess_exec (env : Env) (args : list string) : M (Z * string) :=
  emit (EvSubprocessExec args) ;; mret (run_process env args).

(** Logging calls are left out. *)
Definition auto_edit_video (env : Env) (input_path output_path : string)
    (remove_segments : list loc)
    (apply_color_grade normalize_audio : bool) (overlay_text : option string)
  : M unit :=
  duration ← _probe_duration env input_path;
  remove ← coalesce remove_segments default_eps;
  keep ← invert remove duration;
  match keep with
  | [] => raise nothing_to_keep
  | _ :: _ =>
      let fc := FilterGraph.filter_complex (float_str env) keep
                  apply_color_grade normalize_audio overlay_text in
      let args := get_args env input_path output_path fc in
      '(returncode, stderr) ← subprocess_exec env args;
      if (returncode =? 0)%Z then mret tt else raise (ffmpeg_failed stderr)
  end.

(** Running an edit on a store, from an empty effect log. *)
Definition run_edit (env : Env) (h : heap) (input_path output_path : string)
    (remove_segments : list loc) (apply_color_grade normalize_audio : bool)
    (overlay_text : option string) : (heap * list event) * (exn + unit) :=
  auto_edit_video env input_path output_path remove_segments
    apply_color_grade normalize_audio overlay_text (h, []).

(** The keep-intervals an edit request leads to. *)
Definition keep_of (env : Env) (h : heap) (input_path : string)
    (remove_segments : list loc) : list Interval :=
  let res := _coalesce_ranges h remove_segments default_eps in
  _invert_ranges (deref res.1 res.2) (probe_duration env input_path).

(** The names the specification gives to the two failures. *)
Definition NoContentRemainingError : exn := nothing_to_keep.
Definition EncodeError (diagnosticText : string) : exn :=
  ffmpeg_failed diagnosticText.

(** ** The silence parser ([detect_silence_intervals]) *)

(** The text handed to the parser is the decoded standard error of the
    analysis run.  A [string] is read as a sequence of code points below
    256, so the line boundaries U+2028 and U+2029 of [str.splitlines] are
    outside the model. *)
Module Silence.

Definition is_digit (c : ascii) : bool :=
  let n := nat_of_ascii c in (48 <=? n)%nat && (n <=? 57)%nat.

(** The character class [[0-9.]]. *)
Definition in_class (c : ascii) : bool := is_digit c || Ascii.eqb c "."%char.

(** [[0-9.]+] is greedy and nothing follows it in the pattern: the group is
    the longest run of class characters. *)
Fixpoint take_class (s : string) : string :=
  match s with
  | String c s' => if in_class c then String c (take_class s') else ""
  | EmptyString => ""
  end.

Fixpoint strip_prefix (p s : string) : option string :=
  match p, s with
  | EmptyString, _ => Some s
  | String a p', String b s' => if Ascii.eqb a b then strip_prefix p' s' else None
  | String _ _, EmptyString => None
  end.

(** A match of [lit([0-9.]+)] anchored at the beginning of [s]. *)
Definition match_here (lit s : string) : option string :=
  match strip_prefix lit s with
  | Some rest =>
      match take_class rest with
      | EmptyString => None
      | g => Some g
      end
  | None => None
  end.

(** [re.search]: the leftmost position where the pattern matches; the
    result is group 1. *)
Fixpoint re_search (lit s : string) : option string :=
  match match_here lit s with
  | Some g => Some g
  | None =>
      match s with
      | EmptyString => None
      | String _ s' => re_search lit s'
      end
  end.

Definition _SILENCE_RE_START : string -> option string :=
  re_search "silence_start: ".
Definition _SILENCE_RE_END : string -> option string :=
  re_search "silence_end: ".

(** [float(g)] on a run of digits and dots.  Such a string is a float
    literal when it has at most one dot and at least one digit; otherwise
    Python raises [ValueError]. *)
Fixpoint digits_val (acc : Z) (s : string) : option Z :=
  match s with
  | EmptyString => Some acc
  | String c s' =>
      if is_digit c
      then digits_val (10 * acc + Z.of_nat (nat_of_ascii c - 48))%Z s'
      else None
  end.

Fixpoint split_dot (s : string) : string * option string :=
  match s with
  | EmptyString => ("", None)
  | String c s' =>
      if Ascii.eqb c "."%char then ("", Some s')
      else let '(a, b) := split_dot s' in (String c a, b)
  end.

Definition not_a_float (g : string) : exn :=
  ValueError ("could not convert string to float: '" +:+ g +:+ "'").

Definition py_float (g : string) : exn + Q :=
  let '(ip, fp) := split_dot g in
  let fp := default "" fp in
  match (String.length ip + String.length fp)%nat,
        digits_val 0 (ip +:+ fp) with
  | S _, Some n =>
      inr (Qred (n # Z.to_pos (10 ^ Z.of_nat (String.length fp))))
  | _, _ => inl (not_a_float g)
  end.

(** [str.splitlines()]: a line ends at a line feed, a carriage return (a
    carriage return and line feed together count once), a vertical tab, a
    form feed, a file, group or record separator, or a next-line
    character; the boundaries are removed and no empty last line is
    produced. *)
Definition is_linebreak (c : ascii) : bool :=
  let n := nat_of_ascii c in
  (n =? 10)%nat || (n =? 11)%nat || (n =? 12)%nat || (n =? 13)%nat ||
  (n =? 28)%nat || (n =? 29)%nat || (n =? 30)%nat || (n =? 133)%nat.

Fixpoint splitlines_from (cur : string) (s : string) : list string :=
  match s with
  | EmptyString => match cur with EmptyString => [] | _ => [cur] end
  | String c s' =>
      if is_linebreak c then
        match s' with
        | String d s'' =>
            if (nat_of_ascii c =? 13)%nat && (nat_of_ascii d =? 10)%nat
            then cur :: splitlines_from "" s''
            else cur :: splitlines_from "" s'
        | EmptyString => [cur]
        end
      else splitlines_from (cur +:+ String c "") s'
  end.

Definition splitlines (text : string) : list string := splitlines_from "" text.

(** The errors of [float] propagate. *)
Definition exc_bind {A B} (m : exn + A) (k : A -> exn + B) : exn + B :=
  match m with
  | inl e => inl e
  | inr a => k a
  end.

(** The loop body on one line: first the start pattern, then the end
    pattern.  [float] of the end group is only evaluated when a start is
    pending. *)
Definition on_line (current_start : option Q) (silences : list Interval)
    (line : string) : exn + (option Q * list Interval) :=
  exc_bind
    (match _SILENCE_RE_START line with
     | Some g => exc_bind (py_float g) (fun t => inr (Some t))
     | None => inr current_start
     end)
    (fun current_start =>
       match _SILENCE_RE_END line, current_start with
       | Some g, Some s =>
           exc_bind (py_float g) (fun e =>
             inr (None, silences ++ [mkInterval s e]))
       | _, _ => inr (current_start, silences)
       end).

Fixpoint loop (current_start : option Q) (silences : list Interval)
    (lines : list string) : exn + list Interval :=
  match lines with
  | [] => inr silences
  | line :: rest =>
      exc_bind (on_line current_start silences line)
        (fun st => loop st.1 st.2 rest)
  end.

(** The parsing part of [detect_silence_intervals], from the decoded
    standard error on. *)
Definition detect_silence_intervals (text : string) : exn + list Interval :=
  loop None [] (splitlines text).

(** The loop with its final state exposed: what the parser is tracking
    after a prefix of the lines. *)
Fixpoint fold_lines (current_start : option Q) (silences : list Interval)
    (lines : list string) : exn + (option Q * list Interval) :=
  match lines with
  | [] => inr (current_start, silences)
  | line :: rest =>
      exc_bind (on_line current_start silences line)
        (fun st => fold_lines st.1 st.2 rest)
  end.

(** *** The two-state machine of the specification *)

Inductive marker : Type :=
  | SilenceStart (t : Q)
  | SilenceEnd (t : Q).

Inductive parser_state : Type :=
  | Idle
  | InSilence (since : Q).

(** One marker.  The first three rows are the specification's; it is
    silent on a start marker met while [InSilence], for which the newer
    timestamp is taken. *)
Definition machine_step (st : parser_state) (m : marker)
  : parser_state * list Interval :=
  match st, m with
  | Idle, SilenceStart t => (InSilence t, [])
  | InSilence s, SilenceEnd e => (Idle, [mkInterval s e])
  | Idle, SilenceEnd _ => (Idle, [])
  | InSilence _, SilenceStart t => (InSilence t, [])
  end.

(** The machine on a marker stream: the state it ends in and the
    intervals it emits on the way. *)
Fixpoint machine_run (st : parser_state) (ms : list marker)
  : parser_state * list Interval :=
  match ms with
  | [] => (st, [])
  | m :: ms' =>
      let '(st1, out1) := machine_step st m in
      let '(st2, out2) := machine_run st1 ms' in
      (st2, out1 ++ out2)
  end.

(** What the machine yields from [Idle]: when the stream ends the state,
    and with it an unterminated start, is dropped. *)
Definition machine_output (ms : list marker) : list Interval :=
  (machine_run Idle ms).2.

(** The markers of one line as the two patterns recognise them: at most
    one start marker and one end marker, the start marker first.  [None]
    when a recognised group is not a float literal. *)
Definition marker_of (mk : Q -> marker) (found : option string)
  : option (list marker) :=
  match found with
  | None => Some []
  | Some g =>
      match py_float g with
      | inr t => Some [mk t]
      | inl _ => None
      end
  end.

Definition line_markers (line : string) : option (list marker) :=
  match marker_of SilenceStart (_SILENCE_RE_START line),
        marker_of SilenceEnd (_SILENCE_RE_END line) with
  | Some a, Some b => Some (a ++ b)
  | _, _ => None
  end.

Fixpoint stream_markers (lines : list string) : option (list marker) :=
  match lines with
  | [] => Some []
  | line :: rest =>
      match line_markers line, stream_markers rest with
      | Some a, Some b => Some (a ++ b)
      | _, _ => None
      end
  end.

Definition state_of (current_start : option Q) : parser_state :=
  match current_start with
  | None => Idle
  | Some s => InSilence s
  end.

(** The stream of the specification's example: a start at 1.0, its end at
    2.5 and an unterminated start at 9.0, one marker per line. *)
Definition LF : ascii := "010"%char.

Definition example_stream : string :=
  "silence_start: 1.0" +:+ String LF
  ("silence_end: 2.5" +:+ String LF
  ("silence_start: 9.0" +:+ String LF "")).

End Silence.

(** ** A concrete environment for examples *)

(** Formatting of a float whose value is a whole number, as Python prints
    it ([2.0], [10.0]); other values are not needed by the examples and
    are printed as a fraction. *)
Definition example_float_str (q : Q) : string :=
  match Qred q with
  | Qmake n 1 => pretty n +:+ ".0"
  | Qmake n d => pretty n +:+ "/" +:+ pretty (Zpos d)
  end.

(** A ten-second source whose encode fails with exit code 1 and the
    diagnostic text [Invalid argument]. *)
Definition example_env : Env := {|
  probe_duration := fun _ => 10;
  float_str := example_float_str;
  get_args := fun i o fc => ["-i"; i; o; "-filter_complex"; fc];
  run_process := fun _ => (1%Z, "Invalid argument")
|}.

(** ** Vocabulary of the interval claims *)

(** A dict denotes the half-open range [start, end) of time points. *)
Definition covers (i : Interval) (t : Q) : Prop := start i <= t /\ t < end_ i.

Definition covered (l : list Interval) (t : Q) : Prop :=
  exists i, i ∈ l /\ covers i t.

Definition sorted_starts (l : list Interval) : Prop :=
  StronglySorted (fun a b => start a <= start b) l.

(** Every gap between consecutive intervals is wider than [eps]. *)
Definition gaps_exceed (eps : Q) (l : list Interval) : Prop :=
  forall i a b, l !! i = Some a -> l !! S i = Some b -> end_ a + eps < start b.

(** [t] lies between the end of one interval of [l] and the start of
    another one that begins at most [eps] later. *)
Definition bridged (eps : Q) (l : list Interval) (t : Q) : Prop :=
  exists a b, a ∈ l /\ b ∈ l /\
    end_ a <= t /\ t < start b /\ start b <= end_ a + eps.

(** An interval that removes nothing: [end <= start]. *)
Definition degenerate (i : Interval) : bool := fle (end_ i) (start i).

(** The input list without its degenerate intervals, as the claim on
    degenerate intervals words it. *)
Definition drop_degenerate (h : heap) (ranges : list loc) : list loc :=
  List.filter (fun x => negb (degenerate (h !!! x))) ranges.

(** The invariant of a time interval: [start <= end]. *)
Definition well_formed (i : Interval) : Prop := start i <= end_ i.

(** A merged, sorted remove-set: every interval is well formed, and each
    interval ends no later than every following one starts (so the list is
    sorted by start and its ranges do not overlap). *)
Definition merged_sorted (R : list Interval) : Prop :=
  Forall well_formed R /\
  StronglySorted (fun a b => end_ a <= start b) R.

(** Keep-intervals in ascending order that do not overlap. *)
Definition ascending_disjoint (l : list Interval) : Prop :=
  StronglySorted (fun a b => start a < start b /\ end_ a <= start b) l.

(** How many intervals of a list cover a time point. *)
Definition coversb (i : Interval) (t : Q) : bool :=
  fle (start i) t && flt t (end_ i).

Definition multiplicity (t : Q) (l : list Interval) : nat :=
  length (List.filter (fun i => coversb i t) l).

(** [_invert_ranges] entered with the cursor at [cur] instead of 0. *)
Definition invert_from (cur : Q) (remove : list Interval) (duration : Q)
  : list Interval :=
  let '(keep, cur') := Invert.loop [] cur remove in
  if flt cur' duration then keep ++ [mkInterval cur' duration] else keep.

(** The loop invariant of [Coalesce.loop], relative to the store [h0] the
    function was entered with and to the sorted list [srt] it walks. *)
Record coalesce_inv (eps : Q) (h0 : heap) (srt : list loc)
    (h : heap) (merged rs : list loc) : Prop := {
  inv_last : is_Some (last merged);
  inv_sub : forall x, x ∈ merged ++ rs -> x ∈ srt;
  inv_start : forall x, get_start h x = get_start h0 x;
  inv_grow : forall x, get_end h0 x <= get_end h x;
  inv_frame : forall x, x ∉ merged -> h !! x = h0 !! x;
  inv_sorted :
    StronglySorted (fun a b => get_start h0 a <= get_start h0 b) (merged ++ rs);
  inv_gap : forall i a b, merged !! i = Some a -> merged !! S i = Some b ->
    get_end h a + eps < get_start h0 b;
  inv_orig : forall m, m ∈ srt -> exists a, a ∈ srt /\ get_end h m = get_end h0 a;
  inv_expl : forall m t, m ∈ srt -> get_start h0 m <= t -> t < get_end h m ->
    covered (deref h0 srt) t \/ bridged eps (deref h0 srt) t;
  inv_cov : forall x, x ∈ srt -> x ∈ rs \/
    exists m, m ∈ merged /\ get_start h0 m <= get_start h0 x /\
              get_end h0 x <= get_end h m
}.

(** ** Vocabulary of the further properties *)

(** A run of intervals each of which starts within [eps] of the running
    end [e], the running end growing as [_coalesce_ranges] grows it. *)
Fixpoint chained (eps e : Q) (l : list Interval) : Prop :=
  match l with
  | [] => True
  | v :: l' => start v <= e + eps /\ chained eps (pymax e (end_ v)) l'
  end.

(** The largest end met along a run, starting from [e]. *)
Definition max_end (e : Q) (l : list Interval) : Q :=
  foldl (fun e v => pymax e (end_ v)) e l.

(** A line the parser reacts to: one of the two patterns matches. *)
Definition has_marker (line : string) : bool :=
  bool_decide (is_Some (Silence._SILENCE_RE_START line)) ||
  bool_decide (is_Some (Silence._SILENCE_RE_END line)).

(** [q] is the timestamp of a start (resp. end) marker of one of the
    lines. *)
Definition start_stamp (lines : list string) (q : Q) : Prop :=
  exists l g, l ∈ lines /\ Silence._SILENCE_RE_START l = Some g /\
              Silence.py_float g = inr q.

Definition end_stamp (lines : list string) (q : Q) : Prop :=
  exists l g, l ∈ lines /\ Silence._SILENCE_RE_END l = Some g /\
              Silence.py_float g = inr q.

(** The number of lines on which a pattern matches. *)
Definition count_matches (re : string -> option string) (lines : list string)
  : nat :=
  length (List.filter (fun l => bool_decide (is_Some (re l))) lines).

(** ** Python strings and exceptions used by the rest of the code *)

(** As in the silence parser, a [string] is a sequence of code points
    below 256. *)
Module PyStr.

(** [str.lower()]: on these code points the upper-case letters are A-Z and
    the Latin-1 capitals U+00C0-U+00DE less the multiplication sign
    U+00D7; each is 32 below its lower-case form. *)
Definition lower_char (c : ascii) : ascii :=
  let n := nat_of_ascii c in
  if ((65 <=? n)%nat && (n <=? 90)%nat) ||
     ((192 <=? n)%nat && (n <=? 222)%nat && negb (n =? 215)%nat)
  then ascii_of_nat (n + 32) else c.

Fixpoint lower (s : string) : string :=
  match s with
  | EmptyString => EmptyString
  | String c s' => String (lower_char c) (lower s')
  end.

(** [s.startswith(p)]. *)
Definition startswith (s p : string) : bool :=
  match Silence.strip_prefix p s with
  | Some _ => true
  | None => false
  end.

(** [sub in s]. *)
Fixpoint contains (s sub : string) : bool :=
  match Silence.strip_prefix sub s with
  | Some _ => true
  | None =>
      match s with
      | EmptyString => false
      | String _ s' => contains s' sub
      end
  end.

(** [s.split(" ", 1)]: cut at the first space, if there is one. *)
Fixpoint cut_at_space (s : string) : option (string * string) :=
  match s with
  | EmptyString => None
  | String c s' =>
      if Ascii.eqb c " "%char then Some (EmptyString, s')
      else match cut_at_space s' with
           | Some (a, b) => Some (String c a, b)
           | None => None
           end
  end.

Definition split_space_1 (s : string) : list string :=
  match cut_at_space s with
  | Some (a, b) => [a; b]
  | None => [s]
  end.

(** [str.strip()]: the white space of [str.isspace] on these code points
    is tab, line feed, vertical tab, form feed, carriage return, the four
    separators U+001C-U+001F, space, next line and no-break space. *)
Definition is_space (c : ascii) : bool :=
  let n := nat_of_ascii c in
  ((9 <=? n)%nat && (n <=? 13)%nat) || ((28 <=? n)%nat && (n <=? 32)%nat) ||
  (n =? 133)%nat || (n =? 160)%nat.

Fixpoint lstrip (s : string) : string :=
  match s with
  | EmptyString => EmptyString
  | String c s' => if is_space c then lstrip s' else s
  end.

Fixpoint rstrip (s : string) : string :=
  match s with
  | EmptyString => EmptyString
  | String c s' =>
      match rstrip s' with
      | EmptyString => if is_space c then EmptyString else String c EmptyString
      | r => String c r
      end
  end.

Definition strip (s : string) : string := rstrip (lstrip s).

End PyStr.

(** The exceptions of the rest of the code: FastAPI's [HTTPException], the
    lookups that fail, the two builtin errors met so far, and whatever a
    library call raises. *)
Inductive pyexn : Type :=
  | HTTPException (status_code : nat) (detail : string)
  | KeyError (key : string)
  | IndexError
  | Builtin (e : exn)
  | LibraryError (what : string).

(** ** [detect_fillers_from_segments] and [transcribe_video_to_text] *)

Module Transcribe.

(** A segment dict.  The three keys are read with [dict.get], so each may
    be missing; a value that is present has the type
    [transcribe_video_to_text] gives it. *)
Record Segment : Type := mkSegment {
  seg_start : option Q;
  seg_end : option Q;
  seg_text : option string
}.

(** The set [FILLERS]; the order in which [any] goes through it does not
    change its answer. *)
Definition FILLERS : list string :=
  ["um"; "uh"; "erm"; "hmm"; "uhh"; "like"; "you know"].

(** [any(f in lower for f in FILLERS)]. *)
Definition any_filler (lower : string) : bool :=
  existsb (fun f => PyStr.contains lower f) FILLERS.

Fixpoint fillers_loop (result : list Interval) (segments : list Segment)
  : list Interval :=
  match segments with
  | [] => result
  | seg :: rest =>
      let lower := PyStr.lower (default EmptyString (seg_text seg)) in
      let result' :=
        if any_filler lower
        then result ++ [mkInterval (default 0 (seg_start seg))
                                   (default 0 (seg_end seg))]
        else result in
      fillers_loop result' rest
  end.

Definition detect_fillers_from_segments (segments : list Segment)
  : list Interval :=
  fillers_loop [] segments.

(** What faster-whisper yields for one segment: [s.start], [s.end] and
    [s.text], which may be [None]. *)
Record WhisperSegment : Type := mkWhisperSegment {
  ws_start : Q;
  ws_end : Q;
  ws_text : option string
}.

(** The environment variables, the constructor [WhisperModel(name,
    device="cpu", compute_type=...)] and the run of a loaded model on a
    file; [W] is the type of loaded models. *)
Record WhisperEnv (W : Type) : Type := mkWhisperEnv {
  getenv : string -> option string;
  load_model : string -> string -> pyexn + W;
  run_model : W -> string -> pyexn + list WhisperSegment
}.
Arguments getenv {W}.
Arguments load_model {W}.
Arguments run_model {W}.

(** The [for s in segments_iter] loop: two appends per segment.
    [s.text or ""] turns [None] into the empty string. *)
Fixpoint collect (segments_list : list Segment) (full_text_parts : list string)
    (it : list WhisperSegment) : list Segment * list string :=
  match it with
  | [] => (segments_list, full_text_parts)
  | s :: rest =>
      let text := default EmptyString (ws_text s) in
      collect
        (segments_list ++ [mkSegment (Some (ws_start s)) (Some (ws_end s))
                                     (Some text)])
        (full_text_parts ++ [text]) rest
  end.

(** [" ".join(t.strip() for t in full_text_parts).strip()]. *)
Definition join_text (full_text_parts : list string) : string :=
  PyStr.strip (String.concat " " (map PyStr.strip full_text_parts)).

(** The global [_WHISPER_MODEL] is the state that is passed in and handed
    back. *)
Definition transcribe_video_to_text {W} (env : WhisperEnv W)
    (_WHISPER_MODEL : option W) (video_path : string)
  : option W * (pyexn + (string * list Segment)) :=
  let model_name := default "base" (getenv env "WHISPER_MODEL") in
  let loaded :=
    match _WHISPER_MODEL with
    | Some m => inr m
    | None =>
        load_model env model_name (default "int8" (getenv env "WHISPER_COMPUTE"))
    end in
  match loaded with
  | inl e => (_WHISPER_MODEL, inl e)
  | inr m =>
      match run_model env m video_path with
      | inl e => (Some m, inl e)
      | inr segments_iter =>
          let '(segments_list, full_text_parts) := collect [] [] segments_iter in
          (Some m, inr (join_text full_text_parts, segments_list))
      end
  end.

End Transcribe.

(** The interval a reported segment gives, and the test that reports it. *)
Definition segment_interval (seg : Transcribe.Segment) : Interval :=
  mkInterval (default 0 (Transcribe.seg_start seg))
             (default 0 (Transcribe.seg_end seg)).

Definition mentions_filler (text : option string) : bool :=
  Transcribe.any_filler (PyStr.lower (default EmptyString text)).

(** [sub] occurs in [s]. *)
Definition occurs_in (sub s : string) : Prop :=
  exists pre post, s = pre +:+ sub +:+ post.

(** A session: calls of [transcribe_video_to_text] one after the other,
    each under its own environment and on its own file, the global model
    being handed from one call to the next. *)
Fixpoint transcribe_session {W} (st : option W)
    (calls : list (Transcribe.WhisperEnv W * string)) : option W :=
  match calls with
  | [] => st
  | (env, path) :: rest =>
      transcribe_session (Transcribe.transcribe_video_to_text env st path).1 rest
  end.

(** A string of white space only. *)
Fixpoint blank (s : string) : bool :=
  match s with
  | EmptyString => true
  | String c s' => PyStr.is_space c && blank s'
  end.

(** An environment for examples: no variable set, a loader that records
    the name and compute type it was asked for, and a model that hears two
    segments. *)
Definition example_whisper : Transcribe.WhisperEnv (string * string) :=
  Transcribe.mkWhisperEnv (string * string)
    (fun _ => None)
    (fun name compute => inr (name, compute))
    (fun _ _ => inr [Transcribe.mkWhisperSegment 0 2 (Some " Um, hello");
                     Transcribe.mkWhisperSegment 2 5 (Some " world ")]).

(** ** [analyze_vibe_safe] *)

Module Vibe.

(** One output of the classifier.  Both keys are read with [dict.get]. *)
Record ClfOut := mkClfOut {
  out_label : option string;
  out_score : option Q
}.

(** The [emotions] dict.  A Python dict keeps its keys in the order of
    their first insertion, and [max] over it walks them in that order, so
    the dict is an association list: [dict_set] overwrites in place or
    appends. *)
Definition dict : Type := list (string * Q).

Fixpoint dict_get (d : dict) (k : string) : option Q :=
  match d with
  | [] => None
  | (k', v) :: d' => if String.eqb k' k then Some v else dict_get d' k
  end.

Fixpoint dict_set (d : dict) (k : string) (v : Q) : dict :=
  match d with
  | [] => [(k, v)]
  | (k', v') :: d' =>
      if String.eqb k' k then (k', v) :: d' else (k', v') :: dict_set d' k v
  end.

(** The body of the loop over [res]. *)
Definition step (emotions : dict) (out : ClfOut) : dict :=
  let label := PyStr.lower (default "NEUTRAL" (out_label out)) in
  let score := default 0 (out_score out) in
  if PyStr.contains label "pos" then
    dict_set emotions "positive"
      (pymax (default 0 (dict_get emotions "positive")) score)
  else if PyStr.contains label "neg" then
    dict_set emotions "negative"
      (pymax (default 0 (dict_get emotions "negative")) score)
  else
    dict_set emotions "neutral"
      (pymax (default 0 (dict_get emotions "neutral")) score).

(** [max(emotions, key=emotions.get)]: the first key, in the dict's order,
    whose value no other value exceeds; a later key replaces the best one
    so far only when its value is strictly greater. *)
Fixpoint max_key_from (best : string) (best_val : Q) (rest : dict) : string :=
  match rest with
  | [] => best
  | (k, v) :: rest' =>
      if fgt v best_val then max_key_from k v rest'
      else max_key_from best best_val rest'
  end.

Definition max_key (d : dict) : option string :=
  match d with
  | [] => None
  | (k, v) :: rest => Some (max_key_from k v rest)
  end.

Record VibeAnalysisResponse := mkVibeAnalysisResponse {
  emotions : dict;
  summary : string
}.

(** [clf] stands for the import of [transformers], the construction of the
    pipeline and its call on the text; whatever any of them raises is
    caught by the [except Exception]. *)
Definition analyze_vibe_safe (clf : string -> pyexn + list ClfOut)
    (text : string) : VibeAnalysisResponse :=
  match clf text with
  | inr res =>
      let emotions := foldl step [] res in
      let summary :=
        match max_key emotions with
        | Some k => k
        | None => "neutral"
        end in
      mkVibeAnalysisResponse emotions summary
  | inl _ => mkVibeAnalysisResponse [("neutral", 1)] "neutral"
  end.

End Vibe.

(** The label an output is read under, the class the loop files it in and
    the score it contributes. *)
Definition label_of (out : Vibe.ClfOut) : string :=
  PyStr.lower (default "NEUTRAL" (Vibe.out_label out)).

Definition class_of (out : Vibe.ClfOut) : string :=
  if PyStr.contains (label_of out) "pos" then "positive"
  else if PyStr.contains (label_of out) "neg" then "negative"
  else "neutral".

Definition score_of (out : Vibe.ClfOut) : Q := default 0 (Vibe.out_score out).

(** A classifier for examples: it answers every text with the same three
    outputs. *)
Definition example_clf (text : string) : pyexn + list Vibe.ClfOut :=
  inr [Vibe.mkClfOut (Some "POSITIVE") (Some (9 # 10));
       Vibe.mkClfOut (Some "Negative") (Some (3 # 10));
       Vibe.mkClfOut (Some "POSITIVE") (Some (1 # 2))].

(** ** [get_supabase], [get_user_from_token] and [get_current_user] *)

Module Supabase.

(** The module-level settings, read from the environment once at import:
    [os.getenv] gives [None] for a variable that is not set. *)
Record Config := mkConfig {
  _SUPABASE_URL : option string;
  _SUPABASE_ANON_KEY : option string
}.

(** An optional string inside an f-string: [None] prints as its name. *)
Definition fmt (x : option string) : string := default "None" x.

(** Python truth of an optional string. *)
Definition truthy (x : option string) : bool :=
  match x with
  | Some (String _ _) => true
  | _ => false
  end.

(** The GET request that [get_user_from_token] sends, and the two things
    it reads from the response: the status and the decoded body, whose
    keys are read with [dict.get]. *)
Record Request := mkRequest {
  req_url : string;
  req_authorization : string;
  req_apikey : option string;
  req_timeout : nat
}.

Record Response (J : Type) := mkResponse {
  status_code : nat;
  json : pyexn + (string -> option J)
}.
Arguments mkResponse {J}.
Arguments status_code {J}.
Arguments json {J}.

Record User (J : Type) := mkUser {
  id : option J;
  email : option J
}.
Arguments mkUser {J}.
Arguments id {J}.
Arguments email {J}.

(** The global [_client] is the state that is passed in and handed back. *)
Definition get_supabase {C} (cfg : Config)
    (create_client : option string -> option string -> pyexn + C)
    (_client : option C) : option C * (pyexn + C) :=
  match _client with
  | None =>
      if negb (truthy (_SUPABASE_URL cfg)) || negb (truthy (_SUPABASE_ANON_KEY cfg))
      then (None, inl (Builtin (RuntimeError
                         "Missing SUPABASE_URL or SUPABASE_ANON_KEY env vars")))
      else match create_client (_SUPABASE_URL cfg) (_SUPABASE_ANON_KEY cfg) with
           | inl e => (None, inl e)
           | inr c => (Some c, inr c)
           end
  | Some c => (Some c, inr c)
  end.

(** The result comes with the requests that were sent. *)
Definition get_user_from_token {J} (cfg : Config)
    (get : Request -> pyexn + Response J) (jwt : string)
  : list Request * (pyexn + User J) :=
  let url := fmt (_SUPABASE_URL cfg) +:+ "/auth/v1/user" in
  let request := mkRequest url ("Bearer " +:+ jwt) (_SUPABASE_ANON_KEY cfg) 30 in
  ([request],
   match get request with
   | inl e => inl e
   | inr r =>
       if negb (status_code r =? 200)%nat
       then inl (Builtin (ValueError "Auth failed"))
       else match json r with
            | inl e => inl e
            | inr data => inr (mkUser (data "id") (data "email"))
            end
   end).

(** A session: calls of [get_supabase] one after the other, each seeing
    its own settings and constructor; the clients handed out are
    collected. *)
Fixpoint session {C} (_client : option C)
    (calls : list (Config * (option string -> option string -> pyexn + C)))
  : list (pyexn + C) :=
  match calls with
  | [] => []
  | (cfg, create_client) :: rest =>
      let '(st, r) := get_supabase cfg create_client _client in
      r :: session st rest
  end.

End Supabase.

Module Main.

(** The dependency that guards the endpoints.  The split of the header is
    outside the [try]; the lookup of the token is inside it. *)
Definition get_current_user {J} (cfg : Supabase.Config)
    (get : Supabase.Request -> pyexn + Supabase.Response J)
    (Authorization : option string)
  : list Supabase.Request * (pyexn + Supabase.User J) :=
  if negb (Supabase.truthy Authorization) ||
     negb (PyStr.startswith (PyStr.lower (default EmptyString Authorization))
                            "bearer ")
  then ([], inl (HTTPException 401 "Missing Authorization Bearer token"))
  else
    match PyStr.split_space_1 (default EmptyString Authorization) !! 1%nat with
    | None => ([], inl IndexError)
    | Some token =>
        let '(sent, r) := Supabase.get_user_from_token cfg get token in
        (sent,
         match r with
         | inr user => inr user
         | inl _ => inl (HTTPException 401 "Invalid or expired token")
         end)
    end.

End Main.

(** The request that carries [token] to the auth endpoint. *)
Definition auth_request (cfg : Supabase.Config) (token : string)
  : Supabase.Request :=
  Supabase.mkRequest (Supabase.fmt (Supabase._SUPABASE_URL cfg) +:+ "/auth/v1/user")
                     ("Bearer " +:+ token)
                     (Supabase._SUPABASE_ANON_KEY cfg) 30.

(** Settings and an auth endpoint for examples: the endpoint knows one
    token. *)
Definition example_config : Supabase.Config :=
  Supabase.mkConfig (Some "https://x.supabase.co") (Some "anon").

Definition example_auth (r : Supabase.Request)
  : pyexn + Supabase.Response string :=
  if String.eqb (Supabase.req_authorization r) "Bearer abc"
  then inr (Supabase.mkResponse 200
              (inr (fun k => if String.eqb k "id" then Some "u1" else None)))
  else inr (Supabase.mkResponse 401 (inr (fun _ => None))).

(** ** The body of [_probe_duration] *)

Module Probe.

(** What [ffmpeg.probe] returns, as far as the function reads it: the
    list under ["streams"], of which each stream is asked for its
    ["codec_type"] and ["duration"] with [dict.get], and the ["duration"]
    under ["format"], both looked up by subscript.  ffprobe prints
    durations as strings. *)
Record Stream := mkStream {
  codec_type : option string;
  duration : option string
}.

Record Format := mkFormat {
  format_duration : option string
}.

Record Probed := mkProbed {
  streams : option (list Stream);
  format : option Format
}.

(** [probe['format']['duration']]. *)
Definition container_duration (probe : Probed) : pyexn + string :=
  match format probe with
  | None => inl (KeyError "format")
  | Some f =>
      match format_duration f with
      | None => inl (KeyError "duration")
      | Some d => inr d
      end
  end.

Definition is_video (stream : Stream) : bool :=
  match codec_type stream with
  | Some t => String.eqb t "video"
  | None => false
  end.

(** The loop over the streams and the line after it.  [to_float] is
    [float] on a string. *)
Fixpoint scan (to_float : string -> pyexn + Q) (probe : Probed)
    (rest : list Stream) : pyexn + Q :=
  match rest with
  | [] =>
      match container_duration probe with
      | inl e => inl e
      | inr d => to_float d
      end
  | stream :: rest' =>
      if is_video stream then
        match duration stream with
        | Some (String c d) => to_float (String c d)
        | _ =>
            match container_duration probe with
            | inl e => inl e
            | inr d => to_float d
            end
        end
      else scan to_float probe rest'
  end.

Definition duration_from (to_float : string -> pyexn + Q) (probe : Probed)
  : pyexn + Q :=
  match streams probe with
  | None => inl (KeyError "streams")
  | Some ss => scan to_float probe ss
  end.

End Probe.

(** [float] on the strings of digits and dots, for examples. *)
Definition example_to_float (s : string) : pyexn + Q :=
  match Silence.py_float s with
  | inl e => inl (Builtin e)
  | inr q => inr q
  end.

(** * Properties *)

(** ** Comparisons *)

Lemma fle_cases a b : (fle a b = true /\ a <= b) \/ (fle a b = false /\ b < a).
Proof.
  unfold fle. destruct (Qle_bool a b) eqn:E.
  - left. split; [done | by apply Qle_bool_iff].
  - right. split; [done |]. apply Qnot_le_lt. intros H.
    apply Qle_bool_iff in H. congruence.
Qed.

Lemma fgt_cases a b : (fgt a b = true /\ b < a) \/ (fgt a b = false /\ a <= b).
Proof. unfold fgt. destruct (fle_cases a b) as [[E H]|[E H]]; unfold fle in E; rewrite E; auto. Qed.

Lemma flt_cases a b : (flt a b = true /\ a < b) \/ (flt a b = false /\ b <= a).
Proof. unfold flt. destruct (fle_cases b a) as [[E H]|[E H]]; unfold fle in E; rewrite E; auto. Qed.

Lemma pymax_cases a b :
  (pymax a b = a /\ b <= a) \/ (pymax a b = b /\ a < b).
Proof. unfold pymax. destruct (fgt_cases b a) as [[E H]|[E H]]; rewrite E; auto. Qed.

Lemma pymax_ge_l a b : a <= pymax a b.
Proof. destruct (pymax_cases a b) as [[-> H]|[-> H]]; lra. Qed.

Lemma pymax_ge_r a b : b <= pymax a b.
Proof. destruct (pymax_cases a b) as [[-> H]|[-> H]]; lra. Qed.

(** ** The object store *)

Lemma get_start_set_end h l v x : get_start (set_end h l v) x = get_start h x.
Proof.
  unfold set_end, get_start. destruct (decide (l = x)) as [->|Hne].
  - by rewrite lookup_total_insert_eq.
  - by rewrite lookup_total_insert_ne.
Qed.

Lemma get_end_set_end_eq h l v : get_end (set_end h l v) l = v.
Proof. unfold set_end, get_end. by rewrite lookup_total_insert_eq. Qed.

Lemma get_end_set_end_ne h l v x : l <> x -> get_end (set_end h l v) x = get_end h x.
Proof. intros Hne. unfold set_end, get_end. by rewrite lookup_total_insert_ne. Qed.

Lemma lookup_set_end_ne h l v x : l <> x -> set_end h l v !! x = h !! x.
Proof. intros Hne. unfold set_end. by rewrite lookup_insert_ne. Qed.

(** ** The merge loop *)

Section coalesce_loop.
Variable eps : Q.
Variable h0 : heap.
Variable srt : list loc.

Lemma deref_elem h l x : x ∈ l -> (h !!! x) ∈ deref h l.
Proof. intros Hx. unfold deref. apply list_elem_of_fmap. eauto. Qed.

Lemma inv_init r0 rest :
  srt = r0 :: rest ->
  StronglySorted (fun a b => get_start h0 a <= get_start h0 b) srt ->
  coalesce_inv eps h0 srt h0 [r0] rest.
Proof.
  intros -> Hs. split.
  - by eexists.
  - done.
  - done.
  - intros x. lra.
  - done.
  - done.
  - intros i a b Ha Hb. destruct i; simpl in *; inversion Hb.
  - intros m Hm. by exists m.
  - intros m t Hm H1 H2. left. exists (h0 !!! m). split.
    + by apply deref_elem.
    + split; [apply H1 | apply H2].
  - intros x Hx. apply elem_of_cons in Hx as [->|Hx]; [right | by left].
    exists r0. split; [set_solver|]. split; lra.
Qed.

Lemma inv_skip h merged r rs lst :
  coalesce_inv eps h0 srt h merged (r :: rs) ->
  last merged = Some lst ->
  get_end h lst + eps < get_start h r ->
  coalesce_inv eps h0 srt h (merged ++ [r]) rs.
Proof.
  intros [Hl Hsub Hst Hgr Hfr Hso Hgap Hor Hex Hcov] Hlast Hlt.
  split.
  - rewrite last_snoc. by eexists.
  - intros x Hx. apply Hsub. by rewrite <- app_assoc in Hx.
  - done.
  - done.
  - intros x Hx. apply Hfr. set_solver.
  - by rewrite <- app_assoc.
  - intros i a b Ha Hb.
    apply lookup_snoc_Some in Hb as [[Hi Hb]|[Hi ->]].
    + rewrite lookup_app_l in Ha by lia. eauto.
    + rewrite lookup_app_l in Ha by lia.
      rewrite last_lookup in Hlast.
      replace (pred (length merged)) with i in Hlast by lia.
      rewrite Hlast in Ha. inversion Ha; subst. by rewrite <- Hst.
  - done.
  - done.
  - intros x Hx. destruct (Hcov x Hx) as [Hin|(m & Hm & H1 & H2)].
    + apply elem_of_cons in Hin as [->|Hin]; [right | by left].
      exists r. split; [set_solver|]. split; [lra | apply Hgr].
    + right. exists m. split; [set_solver | done].
Qed.

Lemma inv_merge h merged r rs lst :
  coalesce_inv eps h0 srt h merged (r :: rs) ->
  last merged = Some lst ->
  get_start h r <= get_end h lst + eps ->
  coalesce_inv eps h0 srt
    (set_end h lst (pymax (get_end h lst) (get_end h r))) merged rs.
Proof.
  intros [Hl Hsub Hst Hgr Hfr Hso Hgap Hor Hex Hcov] Hlast Hle.
  pose proof (pymax_ge_l (get_end h lst) (get_end h r)) as Hvl.
  pose proof (pymax_ge_r (get_end h lst) (get_end h r)) as Hvr.
  set (v := pymax (get_end h lst) (get_end h r)) in *.
  assert (Hlm : lst ∈ merged) by by apply last_Some_elem_of.
  assert (Hls : lst ∈ srt) by (apply Hsub; set_solver).
  assert (Hrs : r ∈ srt) by (apply Hsub; set_solver).
  assert (Hbefore : forall b, b ∈ merged -> get_start h0 b <= get_start h0 r).
  { intros b Hb.
    apply (StronglySorted_app_1_elem_of _ _ _ _ _ Hso); set_solver. }
  assert (Hmono : forall x, get_end h x <= get_end (set_end h lst v) x).
  { intros x. destruct (decide (lst = x)) as [<-|Hne].
    - by rewrite get_end_set_end_eq.
    - rewrite get_end_set_end_ne by done. lra. }
  split.
  - done.
  - intros x [Hx|Hx]%elem_of_app; apply Hsub, elem_of_app; [by left|].
    right. by apply elem_of_cons; right.
  - intros x. by rewrite get_start_set_end.
  - intros x. specialize (Hgr x). specialize (Hmono x). lra.
  - intros x Hx. rewrite lookup_set_end_ne; [by apply Hfr|].
    intros ->. done.
  - apply StronglySorted_app in Hso as (H3 & H1 & H2).
    apply StronglySorted_app. split; [|split; [done|]].
    + intros x1 x2 Hx1 Hx2. apply H3; [done|]. by apply elem_of_cons; right.
    + by inversion H2.
  - intros i a b Ha Hb. destruct (decide (lst = a)) as [<-|Hne].
    + specialize (Hgap i lst b Ha Hb).
      assert (b ∈ merged) as Hbm by (eapply list_elem_of_lookup_2; eauto).
      specialize (Hbefore b Hbm). rewrite Hst in Hle. lra.
    + rewrite get_end_set_end_ne by done. eauto.
  - intros m Hm. destruct (decide (lst = m)) as [<-|Hne].
    + rewrite get_end_set_end_eq. subst v.
      destruct (pymax_cases (get_end h lst) (get_end h r)) as [[-> _]|[-> _]];
        by apply Hor.
    + rewrite get_end_set_end_ne by done. by apply Hor.
  - intros m t Hm H1 H2. destruct (decide (lst = m)) as [<-|Hne].
    + rewrite get_end_set_end_eq in H2.
      destruct (Qlt_le_dec t (get_end h lst)) as [Hin|Hout];
        [by apply (Hex lst)|].
      assert (Hv : v = get_end h r).
      { subst v. destruct (pymax_cases (get_end h lst) (get_end h r))
          as [[E ?]|[E ?]]; [rewrite E in H2; lra | done]. }
      rewrite Hv in H2.
      destruct (Qlt_le_dec t (get_start h0 r)) as [Hlo|Hhi];
        [|by apply (Hex r)].
      right. destruct (Hor lst Hls) as (a & Ha & Hea).
      exists (h0 !!! a), (h0 !!! r).
      split; [by apply deref_elem|]. split; [by apply deref_elem|].
      rewrite Hst in Hle. rewrite Hea in Hout, Hle.
      unfold get_end, get_start in *. lra.
    + rewrite get_end_set_end_ne in H2 by done. by apply (Hex m).
  - intros x Hx. destruct (Hcov x Hx) as [Hin|(m & Hm & H1 & H2)].
    + apply elem_of_cons in Hin as [->|Hin]; [right | by left].
      exists lst. split; [done|]. split; [by apply Hbefore|].
      rewrite get_end_set_end_eq. specialize (Hgr r). lra.
    + right. exists m. split; [done|]. split; [done|].
      specialize (Hmono m). lra.
Qed.

Lemma loop_inv rs : forall h merged,
  coalesce_inv eps h0 srt h merged rs ->
  coalesce_inv eps h0 srt
    (Coalesce.loop eps h merged rs).1 (Coalesce.loop eps h merged rs).2 [].
Proof.
  induction rs as [|r rs IH]; intros h merged HI; [done|].
  simpl. destruct (inv_last _ _ _ _ _ _ HI) as [lst Hlast]. rewrite Hlast.
  destruct (fle_cases (get_start h r) (get_end h lst + eps)) as [[E H]|[E H]];
    rewrite E; apply IH.
  - by apply inv_merge.
  - by eapply inv_skip.
Qed.

End coalesce_loop.

(** ** The stable sort *)

Section sorting.
Variable h : heap.

Let key_le (a b : loc) : Prop := get_start h a <= get_start h b.

Lemma insert_by_start_perm r l : Coalesce.insert_by_start h r l ≡ₚ r :: l.
Proof.
  induction l as [|x l IH]; simpl; [done|].
  destruct (fle _ _); [done|]. rewrite IH. apply Permutation_swap.
Qed.

Lemma sorted_by_start_perm l : Coalesce.sorted_by_start h l ≡ₚ l.
Proof.
  induction l as [|x l IH]; simpl; [done|].
  rewrite insert_by_start_perm. by rewrite IH.
Qed.

Lemma insert_by_start_sorted r l :
  StronglySorted key_le l -> StronglySorted key_le (Coalesce.insert_by_start h r l).
Proof.
  induction 1 as [|x l Hl IH Hx]; simpl.
  - repeat constructor.
  - destruct (fle_cases (get_start h r) (get_start h x)) as [[E H]|[E H]];
      rewrite E.
    + constructor; [by constructor|]. constructor; [done|].
      eapply Forall_impl; [exact Hx|]. unfold key_le. intros y Hy. lra.
    + constructor; [done|]. rewrite insert_by_start_perm.
      constructor; [unfold key_le; lra | done].
Qed.

Lemma sorted_by_start_sorted l :
  StronglySorted key_le (Coalesce.sorted_by_start h l).
Proof.
  induction l as [|x l IH]; simpl; [constructor|].
  by apply insert_by_start_sorted.
Qed.

(** Sorting an already sorted list returns it unchanged. *)
Lemma sorted_by_start_id l :
  StronglySorted key_le l -> Coalesce.sorted_by_start h l = l.
Proof.
  induction 1 as [|x l Hl IH Hx]; simpl; [done|].
  rewrite IH. destruct l as [|y l]; simpl; [done|].
  inversion Hx as [|? ? Hxy _]; subst.
  destruct (fle_cases (get_start h x) (get_start h y)) as [[E H]|[E H]];
    rewrite E; [done|]. unfold key_le in Hxy. lra.
Qed.

End sorting.

(** ** What holds when [_coalesce_ranges] returns *)

Lemma coalesce_cases h ranges eps :
  ranges = [] \/
  exists srt, srt ≡ₚ ranges /\
    coalesce_inv eps h srt
      (_coalesce_ranges h ranges eps).1 (_coalesce_ranges h ranges eps).2 [].
Proof.
  destruct ranges as [|x ranges]; [by left|]. right.
  exists (Coalesce.sorted_by_start h (x :: ranges)).
  split; [apply sorted_by_start_perm|].
  unfold _coalesce_ranges.
  pose proof (sorted_by_start_sorted h (x :: ranges)) as Hs.
  destruct (Coalesce.sorted_by_start h (x :: ranges)) as [|r0 rest] eqn:E.
  - pose proof (sorted_by_start_perm h (x :: ranges)) as HP.
    rewrite E in HP. by apply Permutation_nil_cons in HP.
  - apply loop_inv. by apply inv_init.
Qed.

(** Case analysis on a call of [_coalesce_ranges]: either the input is
    empty, or the invariant holds of the result with nothing left to walk. *)
Ltac coalesce_result h ranges eps :=
  let srt := fresh "srt" in
  let HP := fresh "HP" in
  let HI := fresh "HI" in
  destruct (coalesce_cases h ranges eps) as [->|(srt & HP & HI)];
  [ simpl
  | destruct HI as [Hl Hsub Hst Hgr Hfr Hso Hgap Hor Hex Hcov];
    rewrite app_nil_r in Hso, Hsub ].

Lemma deref_lookup h l i v :
  deref h l !! i = Some v -> exists x, l !! i = Some x /\ v = h !!! x.
Proof.
  unfold deref. revert i. induction l as [|y l IH]; intros [|i] H;
    simpl in *; try done.
  - inversion H; subst. eauto.
  - eauto.
Qed.

Lemma deref_elem_inv h l v : v ∈ deref h l -> exists x, x ∈ l /\ v = h !!! x.
Proof.
  intros (i & Hi)%list_elem_of_lookup_1.
  apply deref_lookup in Hi as (x & Hx & ->).
  exists x. split; [|done]. by eapply list_elem_of_lookup_2.
Qed.

Lemma covered_perm h l1 l2 t :
  l1 ≡ₚ l2 -> covered (deref h l1) t -> covered (deref h l2) t.
Proof.
  intros HP (v & (x & Hx & ->)%deref_elem_inv & Hc).
  exists (h !!! x). split; [|done]. apply deref_elem. by rewrite <- HP.
Qed.

Lemma bridged_perm eps h l1 l2 t :
  l1 ≡ₚ l2 -> bridged eps (deref h l1) t -> bridged eps (deref h l2) t.
Proof.
  intros HP (a & b & (x & Hx & ->)%deref_elem_inv
                     & (y & Hy & ->)%deref_elem_inv & Hc).
  exists (h !!! x), (h !!! y).
  split; [apply deref_elem; by rewrite <- HP|].
  split; [apply deref_elem; by rewrite <- HP|done].
Qed.

Lemma bridged_nonpositive eps l t : eps <= 0 -> ~ bridged eps l t.
Proof. intros He (a & b & _ & _ & H1 & H2 & H3). lra. Qed.

Lemma keys_sorted_ext h h' l :
  (forall x, get_start h' x = get_start h x) ->
  StronglySorted (fun a b => get_start h a <= get_start h b) l ->
  StronglySorted (fun a b => get_start h' a <= get_start h' b) l.
Proof.
  intros Hst. induction 1 as [|x l Hl IH Hx]; constructor; [done|].
  eapply Forall_impl; [exact Hx|]. intros y Hy. simpl. by rewrite !Hst.
Qed.

Lemma sorted_starts_deref h l :
  StronglySorted (fun a b => get_start h a <= get_start h b) l ->
  sorted_starts (deref h l).
Proof.
  induction 1 as [|x l Hl IH Hx]; simpl; constructor; [done|].
  apply Forall_forall. intros v (y & Hy & ->)%deref_elem_inv.
  rewrite Forall_forall in Hx. exact (Hx y Hy).
Qed.

(** The output is sorted by start and its neighbours are more than [eps]
    apart. *)
Lemma coalesce_sorted_gapped h ranges eps :
  sorted_starts (deref (_coalesce_ranges h ranges eps).1
                       (_coalesce_ranges h ranges eps).2) /\
  gaps_exceed eps (deref (_coalesce_ranges h ranges eps).1
                         (_coalesce_ranges h ranges eps).2).
Proof.
  coalesce_result h ranges eps.
  - split; [constructor | by intros [|i] a b Ha].
  - split.
    + apply sorted_starts_deref. by eapply keys_sorted_ext.
    + intros i a b (x & Hx & ->)%deref_lookup (y & Hy & ->)%deref_lookup.
      specialize (Hgap i x y Hx Hy). rewrite <- Hst in Hgap. exact Hgap.
Qed.

(** The output covers what the input covers. *)
Lemma coalesce_covers_input h ranges eps t :
  covered (deref h ranges) t ->
  covered (deref (_coalesce_ranges h ranges eps).1
                 (_coalesce_ranges h ranges eps).2) t.
Proof.
  coalesce_result h ranges eps; [done|].
  intros (v & (x & Hx & ->)%deref_elem_inv & [H1 H2]).
  rewrite <- HP in Hx.
  destruct (Hcov x Hx) as [Hin|(m & Hm & Hm1 & Hm2)];
    [by apply elem_of_nil in Hin|].
  eexists. split; [by apply deref_elem|].
  rewrite <- Hst in Hm1. unfold get_start, get_end in *. split; lra.
Qed.

(** What the output covers is covered by the input or lies in a gap of
    width at most [eps] between two input intervals. *)
Lemma coalesce_covers_only h ranges eps t :
  covered (deref (_coalesce_ranges h ranges eps).1
                 (_coalesce_ranges h ranges eps).2) t ->
  covered (deref h ranges) t \/ bridged eps (deref h ranges) t.
Proof.
  coalesce_result h ranges eps; [by left|].
  intros (v & (m & Hm & ->)%deref_elem_inv & [H1 H2]).
  destruct (Hex m t) as [Hc|Hb].
  - by apply Hsub.
  - rewrite <- Hst. exact H1.
  - exact H2.
  - left. by eapply covered_perm.
  - right. by eapply bridged_perm.
Qed.

(** Once no two neighbours are within [eps], the loop only appends. *)
Lemma loop_fixed eps h rs : forall merged,
  is_Some (last merged) ->
  (forall i a b, (merged ++ rs) !! i = Some a -> (merged ++ rs) !! S i = Some b ->
     get_end h a + eps < get_start h b) ->
  Coalesce.loop eps h merged rs = (h, merged ++ rs).
Proof.
  induction rs as [|r rs IH]; intros merged [lst Hlast] Hgap; simpl.
  - by rewrite app_nil_r.
  - rewrite Hlast.
    assert (get_end h lst + eps < get_start h r) as Hlt.
    { apply last_Some in Hlast as [pre ->].
      apply (Hgap (length pre)).
      - rewrite <- app_assoc. simpl. by apply list_lookup_middle.
      - rewrite <- app_assoc. simpl.
        rewrite (lookup_app_r pre) by lia.
        by replace (S (length pre) - length pre)%nat with 1%nat by lia. }
    destruct (fle_cases (get_start h r) (get_end h lst + eps)) as [[E H]|[E H]];
      rewrite E; [lra|].
    rewrite IH.
    + by rewrite <- app_assoc.
    + rewrite last_snoc. by eexists.
    + by rewrite <- app_assoc.
Qed.

(** The output of [_coalesce_ranges] is a fixed point: run again on the
    returned list and store, it changes neither. *)
Lemma coalesce_fixed_point h ranges eps :
  _coalesce_ranges (_coalesce_ranges h ranges eps).1
                   (_coalesce_ranges h ranges eps).2 eps
  = _coalesce_ranges h ranges eps.
Proof.
  coalesce_result h ranges eps; [done|].
  destruct (_coalesce_ranges h ranges eps) as [h' out]. simpl in *.
  destruct Hl as [lst Hlast].
  destruct out as [|r0 rest]; [done|].
  unfold _coalesce_ranges.
  rewrite sorted_by_start_id by (by eapply keys_sorted_ext).
  rewrite loop_fixed; [done|by eexists|].
  intros i a b Ha Hb. rewrite Hst. eapply Hgap; eauto.
Qed.

(** What the call may write to. *)
Lemma coalesce_frame h ranges eps :
  (forall x, get_start (_coalesce_ranges h ranges eps).1 x = get_start h x) /\
  (forall x, get_end h x <= get_end (_coalesce_ranges h ranges eps).1 x) /\
  (forall x, x ∉ (_coalesce_ranges h ranges eps).2 ->
     (_coalesce_ranges h ranges eps).1 !! x = h !! x) /\
  (forall x, x ∈ (_coalesce_ranges h ranges eps).2 -> x ∈ ranges).
Proof.
  coalesce_result h ranges eps.
  - repeat split; try done. intros x. lra.
  - repeat split; try done. intros x Hx. rewrite <- HP. by apply Hsub.
Qed.

Lemma loop_extends eps rs : forall h merged,
  exists tl, (Coalesce.loop eps h merged rs).2 = merged ++ tl.
Proof.
  induction rs as [|r rs IH]; intros h merged; simpl.
  - exists []. by rewrite app_nil_r.
  - destruct (last merged) as [lst|]; [|exists []; by rewrite app_nil_r].
    destruct (fle _ _).
    + apply IH.
    + destruct (IH h (merged ++ [r])) as [tl ->].
      exists (r :: tl). by rewrite <- app_assoc.
Qed.

(** ** The inversion loop *)

Lemma invert_loop_acc remove : forall keep cur,
  Invert.loop keep cur remove =
    (keep ++ (Invert.loop [] cur remove).1, (Invert.loop [] cur remove).2).
Proof.
  induction remove as [|r rs IH]; intros keep cur; simpl.
  - by rewrite app_nil_r.
  - rewrite IH. rewrite (IH (if fgt (start r) cur then _ else _)).
    simpl. f_equal. destruct (fgt (start r) cur); simpl; [|done].
    by rewrite <- app_assoc.
Qed.

Lemma invert_from_nil cur D :
  invert_from cur [] D = if flt cur D then [mkInterval cur D] else [].
Proof. done. Qed.

Lemma invert_from_cons cur r rs D :
  invert_from cur (r :: rs) D =
    (if fgt (start r) cur then [mkInterval cur (start r)] else [])
      ++ invert_from (pymax cur (end_ r)) rs D.
Proof.
  unfold invert_from. simpl. rewrite invert_loop_acc.
  destruct (Invert.loop [] (pymax cur (end_ r)) rs) as [k c]. simpl.
  destruct (fgt (start r) cur), (flt c D); simpl;
    rewrite ?app_nil_r, <- ?app_assoc; done.
Qed.

Lemma invert_ranges_from remove D : _invert_ranges remove D = invert_from 0 remove D.
Proof. done. Qed.

Lemma coversb_covers i t : coversb i t = true <-> covers i t.
Proof.
  unfold coversb, covers.
  destruct (fle_cases (start i) t) as [[-> H1]|[-> H1]],
           (flt_cases t (end_ i)) as [[-> H2]|[-> H2]]; simpl;
    split; try done; intros [? ?]; lra.
Qed.

Lemma multiplicity_app t l1 l2 :
  multiplicity t (l1 ++ l2) = (multiplicity t l1 + multiplicity t l2)%nat.
Proof. unfold multiplicity. by rewrite List.filter_app, length_app. Qed.

Lemma multiplicity_cons t i l :
  multiplicity t (i :: l) =
    ((if coversb i t then 1 else 0) + multiplicity t l)%nat.
Proof. unfold multiplicity. simpl. by destruct (coversb i t). Qed.

Lemma multiplicity_none t l :
  Forall (fun i => ~ covers i t) l -> multiplicity t l = 0%nat.
Proof.
  induction 1 as [|i l Hi Hl IH]; [done|].
  rewrite multiplicity_cons, IH.
  destruct (coversb i t) eqn:E; [|done]. by apply coversb_covers in E.
Qed.

Lemma coversb_false i t : ~ covers i t -> coversb i t = false.
Proof.
  intros H. destruct (coversb i t) eqn:E; [|done].
  by apply coversb_covers in E.
Qed.

Lemma coversb_true i t : covers i t -> coversb i t = true.
Proof. apply coversb_covers. Qed.

(** Every keep-interval produced from the cursor on starts at or after the
    cursor and is not empty; the keep-intervals ascend without overlap. *)
Lemma invert_from_shape D R : forall cur,
  merged_sorted R ->
  Forall (fun k => cur <= start k /\ start k < end_ k) (invert_from cur R D) /\
  ascending_disjoint (invert_from cur R D).
Proof.
  induction R as [|r rs IH]; intros cur [Hwf Hso].
  - rewrite invert_from_nil.
    destruct (flt_cases cur D) as [[-> H]|[-> H]].
    + split; repeat constructor; simpl; lra.
    + split; constructor.
  - rewrite invert_from_cons.
    inversion Hwf as [|? ? Hr Hwf']; subst.
    inversion Hso as [|? ? Hso' Hrs]; subst.
    destruct (IH (pymax cur (end_ r))) as [IH1 IH2]; [done|].
    pose proof (pymax_ge_l cur (end_ r)) as Hc1.
    pose proof (pymax_ge_r cur (end_ r)) as Hc2.
    unfold well_formed in Hr.
    destruct (fgt_cases (start r) cur) as [[-> H]|[-> H]]; simpl.
    + split.
      * constructor; [simpl; lra|].
        eapply Forall_impl; [exact IH1|]. intros k [? ?]. split; lra.
      * constructor; [done|].
        eapply Forall_impl; [exact IH1|]. intros k [? ?]. simpl. split; lra.
    + split; [|done].
      eapply Forall_impl; [exact IH1|]. intros k [? ?]. split; lra.
Qed.

(** From the cursor up to the duration every time point is covered by
    exactly one interval of the keep-set and the remove-set together. *)
Lemma invert_from_partition D R : forall cur t,
  merged_sorted R -> cur <= t -> t < D ->
  multiplicity t (invert_from cur R D ++ R) = 1%nat.
Proof.
  induction R as [|r rs IH]; intros cur t [Hwf Hso] Hlo Hhi.
  - rewrite invert_from_nil, app_nil_r.
    destruct (flt_cases cur D) as [[-> H]|[-> H]]; [|lra].
    rewrite multiplicity_cons. rewrite coversb_true; [done|].
    split; simpl; lra.
  - rewrite invert_from_cons.
    inversion Hwf as [|? ? Hr Hwf']; subst.
    inversion Hso as [|? ? Hso' Hrs]; subst.
    unfold well_formed in Hr.
    pose proof (pymax_ge_l cur (end_ r)) as Hc1.
    pose proof (pymax_ge_r cur (end_ r)) as Hc2.
    pose proof (pymax_cases cur (end_ r)) as Hcases.
    remember (pymax cur (end_ r)) as cur' eqn:Ecur'.
    destruct (invert_from_shape D rs cur') as [Hk _]; [done|].
    rewrite <- app_assoc, multiplicity_app.
    destruct (Qlt_le_dec t cur') as [Hbelow|Habove].
    + (* the point is before the new cursor: it is in [r] or in the
         keep-interval emitted in front of it *)
      assert (cur' = end_ r) as Hcur'.
      { destruct Hcases as [[E ?]|[E ?]]; [rewrite E in Hbelow; lra | done]. }
      clear Hcases Ecur'. subst cur'.
      rewrite multiplicity_app, multiplicity_cons.
      rewrite (multiplicity_none t (invert_from (end_ r) rs D)).
      2:{ eapply Forall_impl; [exact Hk|]. intros k [? ?] [? ?]. lra. }
      rewrite (multiplicity_none t rs).
      2:{ eapply Forall_impl; [exact Hrs|]. intros k Hk' [? ?]. simpl in Hk'. lra. }
      destruct (fgt_cases (start r) cur) as [[-> H]|[-> H]].
      * rewrite multiplicity_cons.
        destruct (Qlt_le_dec t (start r)) as [Hl|Hr'].
        -- rewrite coversb_true by (split; simpl; lra).
           rewrite coversb_false; [done|]. intros [? ?]. lra.
        -- rewrite (coversb_false (mkInterval _ _)) by (intros [? ?]; simpl in *; lra).
           rewrite coversb_true; [done|]. split; lra.
      * rewrite coversb_true; [done|]. split; lra.
    + (* the point is at or after the new cursor *)
      rewrite (multiplicity_none t (if fgt _ _ then _ else _)).
      2:{ destruct (fgt (start r) cur); repeat constructor.
          intros [? ?]. simpl in *. lra. }
      rewrite multiplicity_app, multiplicity_cons.
      rewrite (coversb_false r) by (intros [? ?]; lra).
      simpl. rewrite <- multiplicity_app. by apply IH.
Qed.

(** Every input interval ends up inside an output interval. *)
Lemma coalesce_absorbs h ranges eps x :
  x ∈ ranges ->
  exists m, m ∈ (_coalesce_ranges h ranges eps).2 /\
    get_start (_coalesce_ranges h ranges eps).1 m <= get_start h x /\
    get_end h x <= get_end (_coalesce_ranges h ranges eps).1 m.
Proof.
  coalesce_result h ranges eps.
  - intros Hx. by apply elem_of_nil in Hx.
  - intros Hx. rewrite <- HP in Hx.
    destruct (Hcov x Hx) as [Hin|(m & Hm & H1 & H2)];
      [by apply elem_of_nil in Hin|].
    exists m. by rewrite Hst.
Qed.

(** The first interval of the sorted input always heads the output. *)
Lemma coalesce_head h ranges eps r0 rest :
  Coalesce.sorted_by_start h ranges = r0 :: rest ->
  exists tl, (_coalesce_ranges h ranges eps).2 = r0 :: tl.
Proof.
  intros Hs. unfold _coalesce_ranges. destruct ranges as [|x ranges]; [done|].
  rewrite Hs. apply (loop_extends eps rest h [r0]).
Qed.

(** A degenerate interval that starts no later than the running interval
    ends is absorbed without a trace. *)
Lemma loop_absorbs_degenerate eps h merged lst r rs :
  0 <= eps ->
  last merged = Some lst ->
  is_Some (h !! lst) ->
  degenerate (h !!! r) = true ->
  get_start h r <= get_end h lst ->
  Coalesce.loop eps h merged (r :: rs) = Coalesce.loop eps h merged rs.
Proof.
  intros He Hlast [v Hv] Hdeg Hle. simpl. rewrite Hlast.
  unfold degenerate in Hdeg.
  destruct (fle_cases (end_ (h !!! r)) (start (h !!! r))) as [[_ Hd]|[E _]];
    [|congruence].
  destruct (fle_cases (get_start h r) (get_end h lst + eps)) as [[-> _]|[_ H]];
    [|lra].
  destruct (pymax_cases (get_end h lst) (get_end h r)) as [[-> _]|[_ H]].
  - f_equal. unfold set_end. apply insert_id.
    unfold get_start, get_end. rewrite (lookup_total_correct _ _ _ Hv), Hv.
    by destruct v.
  - unfold get_start, get_end in *. lra.
Qed.

(** In a list sorted by start, gaps between neighbours are gaps between
    any two intervals. *)
Lemma gaps_pairwise eps l :
  sorted_starts l -> gaps_exceed eps l ->
  StronglySorted (fun a b => end_ a + eps < start b) l.
Proof.
  induction 1 as [|a l Hl IH Ha]; intros Hg; constructor.
  - apply IH. intros i x y Hx Hy. exact (Hg (S i) x y Hx Hy).
  - destruct l as [|a' l]; [constructor|].
    pose proof (Hg 0%nat a a' eq_refl eq_refl) as Hgap.
    inversion Hl as [|? ? _ Ha']; subst.
    constructor; [lra|].
    eapply Forall_impl; [exact Ha'|]. intros b Hb. simpl in Hb. lra.
Qed.

(** With a tolerance that is not negative, what [_coalesce_ranges] returns
    for well-formed input is a merged, sorted remove-set. *)
Lemma separated_of_gaps eps l :
  0 <= eps -> sorted_starts l -> gaps_exceed eps l ->
  StronglySorted (fun a b => end_ a <= start b) l.
Proof.
  intros He Hs Hg. pose proof (gaps_pairwise eps l Hs Hg) as Hp.
  clear Hs Hg. induction Hp as [|a l Hl IH Ha]; constructor; [done|].
  eapply Forall_impl; [exact Ha|]. intros b Hb. simpl in Hb. lra.
Qed.

Lemma coalesce_merged_sorted h ranges eps :
  0 <= eps ->
  Forall well_formed (deref h ranges) ->
  let res := _coalesce_ranges h ranges eps in
  merged_sorted (deref res.1 res.2).
Proof.
  intros He Hwf res.
  destruct (coalesce_sorted_gapped h ranges eps) as (H1 & H2).
  destruct (coalesce_frame h ranges eps) as (F1 & F2 & _ & F4).
  fold res in H1, H2, F1, F2, F4.
  split; [|by eapply separated_of_gaps].
  apply Forall_forall. intros v (m & Hm & ->)%deref_elem_inv.
  rewrite Forall_forall in Hwf.
  specialize (Hwf (h !!! m) (deref_elem h ranges m (F4 m Hm))).
  unfold well_formed in *. specialize (F1 m). specialize (F2 m).
  unfold get_start, get_end in *. rewrite F1. lra.
Qed.

(** The two steps together, as [auto_edit_video] chains them: for
    well-formed remove-intervals the keep-intervals and the merged
    remove-intervals split the time before the duration between them. *)
Lemma keep_of_partition env h input_path remove_segments t :
  Forall well_formed (deref h remove_segments) ->
  0 <= t -> t < probe_duration env input_path ->
  let res := _coalesce_ranges h remove_segments default_eps in
  ascending_disjoint (keep_of env h input_path remove_segments) /\
  multiplicity t (keep_of env h input_path remove_segments ++ deref res.1 res.2)
    = 1%nat.
Proof.
  intros Hwf H0 Ht res. unfold keep_of. fold res.
  assert (merged_sorted (deref res.1 res.2)) as HR.
  { apply coalesce_merged_sorted; [unfold default_eps; lra | done]. }
  rewrite invert_ranges_from. split.
  - by apply invert_from_shape.
  - by apply invert_from_partition.
Qed.

(** ** The edit operation *)

Section edit.
Variable env : Env.
Variable h : heap.
Variables input_path output_path : string.
Variable remove_segments : list loc.
Variables apply_color_grade normalize_audio : bool.
Variable overlay_text : option string.

Let res := _coalesce_ranges h remove_segments default_eps.
Let keep := keep_of env h input_path remove_segments.
Let args := get_args env input_path output_path
  (FilterGraph.filter_complex (float_str env) keep
     apply_color_grade normalize_audio overlay_text).

Lemma run_edit_empty :
  keep = [] ->
  run_edit env h input_path output_path remove_segments
    apply_color_grade normalize_audio overlay_text
  = ((res.1, [EvProbe input_path]), inl nothing_to_keep).
Proof.
  subst keep res. unfold keep_of, run_edit, auto_edit_video. intros Hk.
  unfold mbind, M_bind, _probe_duration, coalesce, invert, emit, mret, M_ret.
  simpl. destruct (_coalesce_ranges h remove_segments default_eps) as [h1 rm].
  simpl in *. by rewrite Hk.
Qed.

Lemma run_edit_nonempty :
  keep <> [] ->
  run_edit env h input_path output_path remove_segments
    apply_color_grade normalize_audio overlay_text
  = ((res.1, [EvProbe input_path; EvSubprocessExec args]),
     if ((run_process env args).1 =? 0)%Z then inr tt
     else inl (ffmpeg_failed (run_process env args).2)).
Proof.
  subst args keep res. unfold keep_of, run_edit, auto_edit_video. intros Hk.
  unfold mbind, M_bind, _probe_duration, coalesce, invert, subprocess_exec,
    emit, mret, M_ret.
  simpl. destruct (_coalesce_ranges h remove_segments default_eps) as [h1 rm].
  simpl in *.
  destruct (_invert_ranges (deref h1 rm) (probe_duration env input_path))
    as [|k ks]; [done|].
  destruct (run_process env _) as [rc err]. simpl.
  by destruct (rc =? 0)%Z.
Qed.

End edit.

(** ** The trim stages *)

Lemma parts_loop_imap fs keep : forall idx acc,
  FilterGraph.parts_loop fs idx keep acc =
    FilterGraph.mkParts
      (FilterGraph.vf_parts acc ++
         imap (fun i seg => FilterGraph.video_trim fs (idx + i)
                 (FilterGraph.trim_bounds seg).1 (FilterGraph.trim_bounds seg).2) keep)
      (FilterGraph.af_parts acc ++
         imap (fun i seg => FilterGraph.audio_trim fs (idx + i)
                 (FilterGraph.trim_bounds seg).1 (FilterGraph.trim_bounds seg).2) keep)
      (FilterGraph.concat_inputs acc ++
         imap (fun i _ => FilterGraph.concat_input (idx + i)) keep).
Proof.
  induction keep as [|seg rest IH]; intros idx acc; simpl.
  - rewrite !app_nil_r. by destruct acc.
  - rewrite IH. simpl. rewrite <- !app_assoc. simpl.
    rewrite !Nat.add_0_r.
    f_equal; do 2 f_equal; apply imap_ext; intros i x _; simpl;
      by rewrite Nat.add_succ_r.
Qed.

(** ** The silence parser *)

Section silence_parser.
Import Silence.

Lemma machine_run_app st a b :
  machine_run st (a ++ b) =
    ((machine_run (machine_run st a).1 b).1,
     (machine_run st a).2 ++ (machine_run (machine_run st a).1 b).2).
Proof.
  revert st. induction a as [|m a IH]; intros st; simpl.
  - by destruct (machine_run st b).
  - destruct (machine_step st m) as [st1 out1]. rewrite IH.
    destruct (machine_run st1 a) as [st2 out2]. simpl.
    by rewrite app_assoc.
Qed.

(** One line of the loop is the machine run on the markers of the line. *)
Lemma on_line_refines cs sil line ms :
  line_markers line = Some ms ->
  exists cs',
    on_line cs sil line = inr (cs', sil ++ (machine_run (state_of cs) ms).2) /\
    state_of cs' = (machine_run (state_of cs) ms).1.
Proof.
  unfold line_markers, on_line, marker_of. intros Hm.
  destruct (_SILENCE_RE_START line) as [g1|];
    [destruct (py_float g1) as [?|t]; [done|]|];
    (destruct (_SILENCE_RE_END line) as [g2|];
      [destruct (py_float g2) as [?|e]; [done|]|]);
    inversion Hm; subst; clear Hm;
    destruct cs as [s|]; simpl; eexists;
    (split; [rewrite ?app_nil_r; reflexivity | reflexivity]).
Qed.

Lemma loop_refines lines : forall cs sil ms,
  stream_markers lines = Some ms ->
  loop cs sil lines = inr (sil ++ (machine_run (state_of cs) ms).2).
Proof.
  induction lines as [|line rest IH]; intros cs sil ms Hm; simpl in *.
  - inversion Hm; subst. simpl. by rewrite app_nil_r.
  - destruct (line_markers line) as [a|] eqn:Ea; [|done].
    destruct (stream_markers rest) as [b|] eqn:Eb; [|done].
    inversion Hm; subst; clear Hm.
    destruct (on_line_refines cs sil line a Ea) as (cs' & -> & Hcs').
    simpl. rewrite (IH cs' _ b eq_refl). rewrite machine_run_app. simpl.
    by rewrite Hcs', app_assoc.
Qed.

(** Lines without a marker leave the loop where it is. *)
Lemma loop_skip mid : forall cs sil rest,
  Forall (fun l => _SILENCE_RE_START l = None /\ _SILENCE_RE_END l = None) mid ->
  loop cs sil (mid ++ rest) = loop cs sil rest.
Proof.
  induction mid as [|l mid IH]; intros cs sil rest Hmid; [done|].
  inversion Hmid as [|? ? [H1 H2] Hmid']; subst. simpl.
  unfold on_line. rewrite H1, H2. simpl. by apply IH.
Qed.

(** The loop on a stream cut in two. *)
Lemma loop_app a : forall cs sil b,
  loop cs sil (a ++ b) =
    exc_bind (fold_lines cs sil a) (fun st => loop st.1 st.2 b).
Proof.
  induction a as [|l a IH]; intros cs sil b; simpl; [done|].
  destruct (on_line cs sil l) as [err|[cs' sil']]; simpl; [done|].
  apply IH.
Qed.

(** A line never takes back an interval that was emitted. *)
Lemma on_line_extends cs sil line cs' sil' :
  on_line cs sil line = inr (cs', sil') -> exists more, sil' = sil ++ more.
Proof.
  unfold on_line. intros H.
  destruct (_SILENCE_RE_START line) as [g1|];
    [destruct (py_float g1) as [?|t]; [done|]|]; simpl in H;
    (destruct (_SILENCE_RE_END line) as [g2|];
      [|inversion H; subst; exists []; by rewrite app_nil_r]).
  - destruct (py_float g2) as [?|e]; [done|]. inversion H; subst. by eexists.
  - destruct cs as [s|];
      [|inversion H; subst; exists []; by rewrite app_nil_r].
    destruct (py_float g2) as [?|e]; [done|]. inversion H; subst. by eexists.
Qed.

Lemma loop_extends_silences lines : forall cs sil out,
  loop cs sil lines = inr out -> exists more, out = sil ++ more.
Proof.
  induction lines as [|l lines IH]; intros cs sil out H; simpl in H.
  - inversion H; subst. exists []. by rewrite app_nil_r.
  - destruct (on_line cs sil l) as [err|[cs' sil']] eqn:E; [done|].
    simpl in H. apply on_line_extends in E as [m1 ->].
    apply IH in H as [m2 ->]. exists (m1 ++ m2). by rewrite app_assoc.
Qed.

End silence_parser.

(** * The claims *)

(** C1: for a merged, sorted remove-set [R] and a duration [D >= 0] the
    keep-intervals of [_invert_ranges] ascend without overlap, none of them
    is empty, and every time point of [0, D) is covered by exactly one
    interval among the keep-intervals and the remove-intervals: no gap and
    no double coverage.  For an empty remove-set and [D > 0] the result is
    the single interval [0, D]. *)
Theorem invert_partitions_duration (R : list Interval) (D : Q) :
  merged_sorted R ->
  0 <= D ->
  let keep := _invert_ranges R D in
  ascending_disjoint keep /\
  Forall (fun k => start k < end_ k) keep /\
  (forall t, 0 <= t -> t < D -> multiplicity t (keep ++ R) = 1%nat) /\
  (0 < D -> _invert_ranges [] D = [mkInterval 0 D]).
Proof.
  intros HR HD keep. subst keep. rewrite invert_ranges_from.
  destruct (invert_from_shape D R 0 HR) as [H1 H2].
  split; [done|]. split.
  - eapply Forall_impl; [exact H1|]. by intros k [_ ?].
  - split.
    + intros t H0 Ht. by apply invert_from_partition.
    + intros Hpos. rewrite invert_ranges_from, invert_from_nil.
      by destruct (flt_cases 0 D) as [[-> H]|[-> H]]; [|lra].
Qed.

Lemma invert_partitions_duration_witness :
  let R := [mkInterval 2 5; mkInterval 7 8] in
  let keep := _invert_ranges R 10 in
  keep = [mkInterval 0 2; mkInterval 5 7; mkInterval 8 10] /\
  ascending_disjoint keep /\
  Forall (fun k => start k < end_ k) keep /\
  (forall t, 0 <= t -> t < 10 -> multiplicity t (keep ++ R) = 1%nat) /\
  (0 < 10 -> _invert_ranges [] 10 = [mkInterval 0 10]).
Proof.
  split; [reflexivity|].
  apply (invert_partitions_duration [mkInterval 2 5; mkInterval 7 8] 10).
  - split; repeat constructor; unfold well_formed; simpl; lra.
  - lra.
Defined.





(** C4, as stated, fails: [_coalesce_ranges] has no filter.  The
    degenerate intervals {5,5} and {7,3} both come back from the merge,
    and the inversion against a duration of 10 then keeps [5, 7) twice,
    where the empty remove-set would keep [0, 10) once. *)
Lemma coalesce_keeps_degenerate :
  let h := store_of [mkInterval 5 5; mkInterval 7 3] in
  let ranges := [0%nat; 1%nat] in
  let res := _coalesce_ranges h ranges default_eps in
  let res' := _coalesce_ranges h (drop_degenerate h ranges) default_eps in
  drop_degenerate h ranges = [] /\
  deref res.1 res.2 = [mkInterval 5 5; mkInterval 7 3] /\
  deref res'.1 res'.2 = [] /\
  deref res.1 res.2 <> deref res'.1 res'.2 /\
  _invert_ranges (deref res.1 res.2) 10 =
    [mkInterval 0 5; mkInterval 5 7; mkInterval 5 10] /\
  _invert_ranges (deref res'.1 res'.2) 10 = [mkInterval 0 10].
Proof. vm_compute. repeat split; done. Qed.

(** C4 (amended): [_coalesce_ranges] does not drop intervals with
    [end <= start].  A list of one interval is returned as it is, whatever
    its bounds; the first interval of the sorted input always heads the
    output; every input interval lies inside some output interval.  With
    a tolerance that is not negative, a degenerate interval that the loop
    reaches while it starts no later than the running interval ends is
    absorbed and changes nothing.  An inverted extent is otherwise only
    clamped when the trim stages are built: [to = max(ss, end)] is never
    below [ss = max(0, start)]. *)
Theorem coalesce_never_filters (h : heap) (ranges : list loc) (eps : Q) :
  let res := _coalesce_ranges h ranges eps in
  (forall x, _coalesce_ranges h [x] eps = (h, [x])) /\
  (forall r0 rest, Coalesce.sorted_by_start h ranges = r0 :: rest ->
     exists tl, res.2 = r0 :: tl) /\
  (forall x, x ∈ ranges ->
     exists m, m ∈ res.2 /\ get_start res.1 m <= get_start h x /\
               get_end h x <= get_end res.1 m) /\
  (forall merged lst r rs,
     0 <= eps -> last merged = Some lst -> is_Some (h !! lst) ->
     degenerate (h !!! r) = true -> get_start h r <= get_end h lst ->
     Coalesce.loop eps h merged (r :: rs) = Coalesce.loop eps h merged rs) /\
  (forall seg, 0 <= (FilterGraph.trim_bounds seg).1 /\
     (FilterGraph.trim_bounds seg).1 <= (FilterGraph.trim_bounds seg).2).
Proof.
  intros res. split; [done|]. split.
  - intros r0 rest Hs. by eapply coalesce_head.
  - split; [intros x; apply coalesce_absorbs|]. split.
    + intros merged lst r rs. apply loop_absorbs_degenerate.
    + intros seg. unfold FilterGraph.trim_bounds. simpl.
      split; apply pymax_ge_l.
Qed.




(** C7, as stated, fails on some streams: the start pattern accepts any
    run of digits and dots, and [float] raises on a run such as [1.2.3], so
    the parser raises [ValueError] where the machine has no such move. *)
Lemma silence_parser_raises_on_malformed_timestamp :
  let text := "silence_start: 1.2.3" +:+ String Silence.LF "" in
  Silence._SILENCE_RE_START "silence_start: 1.2.3" = Some "1.2.3" /\
  Silence.detect_silence_intervals text
    = inl (ValueError "could not convert string to float: '1.2.3'") /\
  ~ (exists out, Silence.detect_silence_intervals text = inr out).
Proof.
  split; [by vm_compute|]. split; [by vm_compute|].
  intros [out Hout]. vm_compute in Hout. discriminate Hout.
Qed.

(** C7 (amended): on every stream whose recognised timestamps are float
    literals the parser is the two-state machine, run from [Idle] on the
    markers the two patterns find line by line (per line at most one start
    and one end marker, the start marker first).  Row by row, on the loop
    body: a start marker met while idle is recorded; an end marker met
    while a start is pending emits the pair and returns to idle; an end
    marker met while idle is ignored; a start still pending when the
    stream ends is not emitted.  A recognised run that is not a float
    literal makes the parser raise when it belongs to a start marker, or to
    an end marker met while a start is pending.  The example stream yields
    exactly [{1.0, 2.5}]. *)
Theorem silence_parser_two_state_machine (text : string)
    (ms : list Silence.marker) :
  Silence.stream_markers (Silence.splitlines text) = Some ms ->
  Silence.detect_silence_intervals text = inr (Silence.machine_output ms) /\
  (forall sil line g t,
     Silence._SILENCE_RE_START line = Some g -> Silence.py_float g = inr t ->
     Silence._SILENCE_RE_END line = None ->
     Silence.on_line None sil line = inr (Some t, sil)) /\
  (forall s sil line g e,
     Silence._SILENCE_RE_START line = None ->
     Silence._SILENCE_RE_END line = Some g -> Silence.py_float g = inr e ->
     Silence.on_line (Some s) sil line = inr (None, sil ++ [mkInterval s e])) /\
  (forall sil line,
     Silence._SILENCE_RE_START line = None ->
     Silence.on_line None sil line = inr (None, sil)) /\
  (forall s sil, Silence.loop (Some s) sil [] = inr sil) /\
  (forall cs sil line g err,
     Silence._SILENCE_RE_START line = Some g -> Silence.py_float g = inl err ->
     Silence.on_line cs sil line = inl err) /\
  (forall s sil line g err,
     Silence._SILENCE_RE_START line = None ->
     Silence._SILENCE_RE_END line = Some g -> Silence.py_float g = inl err ->
     Silence.on_line (Some s) sil line = inl err) /\
  Silence.detect_silence_intervals Silence.example_stream
    = inr [mkInterval 1 (5 # 2)].
Proof.
  intros Hm. split.
  - unfold Silence.detect_silence_intervals, Silence.machine_output.
    by rewrite (loop_refines _ None [] ms Hm).
  - repeat split.
    + intros sil line g t H1 H2 H3. unfold Silence.on_line.
      by rewrite H1, H2, H3.
    + intros s sil line g e H1 H2 H3. unfold Silence.on_line.
      by rewrite H1, H2, H3.
    + intros sil line H1. unfold Silence.on_line. rewrite H1. simpl.
      by destruct (Silence._SILENCE_RE_END line).
    + intros cs sil line g err H1 H2. unfold Silence.on_line.
      by rewrite H1, H2.
    + intros s sil line g err H1 H2 H3. unfold Silence.on_line.
      by rewrite H1, H2, H3.
Qed.

Lemma silence_parser_two_state_machine_witness :
  Silence.detect_silence_intervals Silence.example_stream
    = inr (Silence.machine_output
             [Silence.SilenceStart 1; Silence.SilenceEnd (5 # 2);
              Silence.SilenceStart 9]).
Proof.
  apply (silence_parser_two_state_machine Silence.example_stream
           [Silence.SilenceStart 1; Silence.SilenceEnd (5 # 2);
            Silence.SilenceStart 9]).
  vm_compute. reflexivity.
Defined.

(** C8: merge is idempotent.  Running [_coalesce_ranges] on its own result
    returns the same list of intervals (the same objects, in a store that
    is left as it was). *)
Theorem coalesce_idempotent (h : heap) (ranges : list loc) (eps : Q) :
  let res := _coalesce_ranges h ranges eps in
  let res' := _coalesce_ranges res.1 res.2 eps in
  res' = res /\ deref res'.1 res'.2 = deref res.1 res.2.
Proof.
  intros res res'. assert (res' = res) as -> by apply coalesce_fixed_point.
  done.
Qed.

(** C9, as stated, fails: merging [{2,4},{3,5}] overwrites the [end] of the
    caller's first dict, which reads {2,5} afterwards. *)
Lemma coalesce_mutates_input :
  let h := store_of [mkInterval 2 4; mkInterval 3 5] in
  let ranges := [0%nat; 1%nat] in
  let res := _coalesce_ranges h ranges default_eps in
  h !!! 0%nat = mkInterval 2 4 /\
  res.1 !!! 0%nat = mkInterval 2 5 /\
  ~ (forall x, x ∈ ranges -> res.1 !!! x = h !!! x).
Proof.
  split; [by vm_compute|]. split; [by vm_compute|].
  intros H. specialize (H 0%nat). vm_compute in H.
  assert (Hin : 0%nat ∈ [0%nat; 1%nat]) by by left.
  specialize (H Hin). by inversion H.
Qed.

(** C9 (amended): [_coalesce_ranges] writes to the dicts it is given, but
    only to their [end]: no [start] is ever changed, an [end] is never
    lowered, and only objects that are returned in the output list can
    differ from what they were; the returned objects are input objects. *)
Theorem coalesce_writes_only_ends (h : heap) (ranges : list loc) (eps : Q) :
  let res := _coalesce_ranges h ranges eps in
  (forall x, get_start res.1 x = get_start h x) /\
  (forall x, get_end h x <= get_end res.1 x) /\
  (forall x, x ∉ res.2 -> res.1 !! x = h !! x) /\
  (forall x, x ∈ res.2 -> x ∈ ranges).
Proof. apply coalesce_frame. Qed.

(** C10: let the parser be tracking an unmatched start [s0] after a
    prefix of the stream.  If the next line with a marker is a second
    start marker, at [t], and the next line with a marker after it is an
    end marker, at [e], the parser goes on from [Idle] with the interval
    {t, e} emitted: the end is paired with the most recent start, and the
    result holds {t, e} right after what had been emitted before, so the
    earlier start [s0] is never emitted. *)
Theorem second_start_replaces_first (text : string)
    (pre mid rest : list string) (l1 l2 : string)
    (s0 : Q) (sil : list Interval) (g1 g2 : string) (t e : Q) :
  Silence.splitlines text = pre ++ l1 :: mid ++ l2 :: rest ->
  Silence.fold_lines None [] pre = inr (Some s0, sil) ->
  Silence._SILENCE_RE_START l1 = Some g1 -> Silence.py_float g1 = inr t ->
  Silence._SILENCE_RE_END l1 = None ->
  Forall (fun l => Silence._SILENCE_RE_START l = None /\
                   Silence._SILENCE_RE_END l = None) mid ->
  Silence._SILENCE_RE_START l2 = None ->
  Silence._SILENCE_RE_END l2 = Some g2 -> Silence.py_float g2 = inr e ->
  Silence.detect_silence_intervals text
    = Silence.loop None (sil ++ [mkInterval t e]) rest /\
  (forall out, Silence.detect_silence_intervals text = inr out ->
     exists more, out = sil ++ mkInterval t e :: more).
Proof.
  intros Hlines Hpre H1 H2 H3 Hmid H4 H5 H6.
  assert (Silence.detect_silence_intervals text
          = Silence.loop None (sil ++ [mkInterval t e]) rest) as Heq.
  { unfold Silence.detect_silence_intervals. rewrite Hlines.
    rewrite loop_app, Hpre. simpl.
    unfold Silence.on_line at 1. rewrite H1, H2, H3. simpl.
    rewrite loop_skip by done. simpl.
    unfold Silence.on_line at 1. by rewrite H4, H5, H6. }
  split; [done|]. intros out Hout. rewrite Heq in Hout.
  apply loop_extends_silences in Hout as [more ->].
  exists more. by rewrite <- app_assoc.
Qed.

Lemma second_start_replaces_first_witness :
  let text :=
    "silence_start: 1.0" +:+ String Silence.LF
    ("silence_start: 3.0" +:+ String Silence.LF
    ("frame=   10 fps=0.0" +:+ String Silence.LF
    ("silence_end: 4.0 | silence_duration: 1.0" +:+ String Silence.LF ""))) in
  Silence.detect_silence_intervals text = inr [mkInterval 3 4].
Proof.
  apply (second_start_replaces_first _
           ["silence_start: 1.0"] ["frame=   10 fps=0.0"] []
           "silence_start: 3.0" "silence_end: 4.0 | silence_duration: 1.0"
           1 [] "3.0" "4.0" 3 4);
    try (vm_compute; reflexivity).
  repeat constructor.
Defined.

(** * Further properties of the code *)

(** ** [_invert_ranges] on arbitrary input *)

(** The keep-intervals start at or after the cursor and are not empty,
    whatever the remove list. *)
Lemma invert_from_lower D R : forall cur,
  Forall (fun k => cur <= start k /\ start k < end_ k) (invert_from cur R D).
Proof.
  induction R as [|r rs IH]; intros cur.
  - rewrite invert_from_nil.
    destruct (flt_cases cur D) as [[-> H]|[-> H]]; repeat constructor;
      simpl; lra.
  - rewrite invert_from_cons.
    pose proof (pymax_ge_l cur (end_ r)) as Hc.
    apply Forall_app. split.
    + destruct (fgt_cases (start r) cur) as [[-> H]|[-> H]];
        repeat constructor; simpl; lra.
    + eapply Forall_impl; [apply IH|]. intros k [? ?]. split; lra.
Qed.

Lemma covered_app l1 l2 t : covered (l1 ++ l2) t <-> covered l1 t \/ covered l2 t.
Proof.
  unfold covered. split.
  - intros (i & [Hi|Hi]%elem_of_app & Hc); eauto.
  - intros [(i & Hi & Hc)|(i & Hi & Hc)]; exists i; split; try done;
      apply elem_of_app; auto.
Qed.

Lemma covered_cons i l t : covered (i :: l) t <-> covers i t \/ covered l t.
Proof.
  unfold covered. split.
  - intros (j & [->|Hj]%elem_of_cons & Hc); eauto.
  - intros [Hc|(j & Hj & Hc)]; [exists i | exists j]; split; try done;
      apply elem_of_cons; auto.
Qed.

Lemma covered_nil t : ~ covered [] t.
Proof. intros (i & Hi & _). by apply elem_of_nil in Hi. Qed.

(** No time is lost: from the cursor to the duration every point is kept
    or lies in a remove-interval. *)
Lemma invert_from_no_gap D R : forall cur t,
  cur <= t -> t < D -> covered (invert_from cur R D) t \/ covered R t.
Proof.
  induction R as [|r rs IH]; intros cur t Hlo Hhi.
  - left. rewrite invert_from_nil.
    destruct (flt_cases cur D) as [[-> H]|[-> H]]; [|lra].
    apply covered_cons. left. split; simpl; lra.
  - rewrite invert_from_cons.
    destruct (pymax_cases cur (end_ r)) as [[E Hc]|[E Hc]]; rewrite E.
    + destruct (IH cur t Hlo Hhi) as [Hk|Hr].
      * left. apply covered_app. by right.
      * right. apply covered_cons. by right.
    + destruct (Qlt_le_dec t (end_ r)) as [Hin|Hout].
      * destruct (fgt_cases (start r) cur) as [[-> H]|[-> H]].
        -- destruct (Qlt_le_dec t (start r)) as [Hl|Hr].
           ++ left. apply covered_app. left. apply covered_cons. left.
              split; simpl; lra.
           ++ right. apply covered_cons. left. split; lra.
        -- right. apply covered_cons. left. split; lra.
      * destruct (IH (end_ r) t Hout Hhi) as [Hk|Hr].
        -- left. apply covered_app. by right.
        -- right. apply covered_cons. by right.
Qed.

(** X1: whatever the remove list (sorted or not, merged or not,
    degenerate intervals included), [_invert_ranges] loses no time: every
    point of [0, D) lies in a keep-interval or in a remove-interval.  In
    particular, when nothing is kept, all of [0, D) was to be removed. *)
Theorem invert_loses_no_time (R : list Interval) (D t : Q) :
  0 <= t -> t < D ->
  (covered (_invert_ranges R D) t \/ covered R t) /\
  (_invert_ranges R D = [] -> covered R t).
Proof.
  intros H0 Ht. rewrite invert_ranges_from.
  pose proof (invert_from_no_gap D R 0 t H0 Ht) as Hg.
  split; [done|]. intros Hnil. rewrite Hnil in Hg.
  destruct Hg as [Hk|Hr]; [by apply covered_nil in Hk | done].
Qed.

Lemma invert_loses_no_time_witness :
  let R := [mkInterval 5 6; mkInterval 7 3; mkInterval 1 2] in
  (covered (_invert_ranges R 10) 4 \/ covered R 4) /\
  (_invert_ranges R 10 = [] -> covered R 4).
Proof.
  apply (invert_loses_no_time [mkInterval 5 6; mkInterval 7 3; mkInterval 1 2]
           10 4); lra.
Defined.

(** The cursor is the literal 0 or a positive end, and so is the start of
    every keep-interval. *)
Lemma invert_from_starts D R : forall cur,
  cur = 0 \/ 0 < cur ->
  Forall (fun k => (start k = 0 \/ 0 < start k) /\ start k < end_ k)
         (invert_from cur R D).
Proof.
  induction R as [|r rs IH]; intros cur Hcur.
  - rewrite invert_from_nil.
    destruct (flt_cases cur D) as [[-> H]|[-> H]]; [|constructor].
    constructor; [|constructor]. by split.
  - rewrite invert_from_cons. apply Forall_app. split.
    + destruct (fgt_cases (start r) cur) as [[-> H]|[-> H]]; [|constructor].
      constructor; [|constructor]. by split.
    + apply IH.
      destruct (pymax_cases cur (end_ r)) as [[-> _]|[-> Hlt]]; [done|].
      right. destruct Hcur as [->|Hpos]; lra.
Qed.

Lemma trim_bounds_idle k :
  start k = 0 \/ 0 < start k -> start k < end_ k ->
  FilterGraph.trim_bounds k = (start k, end_ k).
Proof.
  intros Hs Hlt. unfold FilterGraph.trim_bounds.
  assert (pymax 0 (start k) = start k) as ->.
  { destruct Hs as [->|Hpos]; [done|].
    destruct (pymax_cases 0 (start k)) as [[_ H]|[-> _]]; [lra|done]. }
  destruct (pymax_cases (start k) (end_ k)) as [[_ H]|[-> _]]; [lra|done].
Qed.

(** X2: whatever the remove list, every keep-interval that
    [_invert_ranges] returns starts at 0 or later and is not empty, so the
    clamps of the trim loop ([ss = max(0.0, start)], [to = max(ss, end)])
    never change a bound: each trim stage is cut at exactly the start and
    the end of its keep-interval, and no trim stage is empty. *)
Theorem invert_keeps_are_proper (R : list Interval) (D : Q) (k : Interval) :
  k ∈ _invert_ranges R D ->
  0 <= start k /\ start k < end_ k /\
  FilterGraph.trim_bounds k = (start k, end_ k).
Proof.
  intros Hk. rewrite invert_ranges_from in Hk.
  pose proof (invert_from_starts D R 0 (or_introl eq_refl)) as Hs.
  rewrite Forall_forall in Hs. destruct (Hs k Hk) as [H0 Hlt].
  split; [destruct H0 as [->|?]; lra|]. split; [done|].
  by apply trim_bounds_idle.
Qed.

Lemma invert_keeps_are_proper_witness :
  let k := mkInterval 0 7 in
  0 <= start k /\ start k < end_ k /\
  FilterGraph.trim_bounds k = (start k, end_ k).
Proof.
  apply (invert_keeps_are_proper [mkInterval 7 3] 10 (mkInterval 0 7)).
  vm_compute. left.
Defined.

(** The keep-intervals ascend without overlap as soon as the remove
    intervals are well formed. *)
Lemma invert_from_ascending D R : forall cur,
  Forall well_formed R -> ascending_disjoint (invert_from cur R D).
Proof.
  induction R as [|r rs IH]; intros cur Hwf.
  - rewrite invert_from_nil. destruct (flt cur D); repeat constructor.
  - rewrite invert_from_cons.
    inversion Hwf as [|? ? Hr Hwf']; subst. unfold well_formed in Hr.
    destruct (fgt_cases (start r) cur) as [[-> H]|[-> H]]; simpl;
      [|by apply IH].
    constructor; [by apply IH|].
    pose proof (pymax_ge_r cur (end_ r)) as Hc.
    eapply Forall_impl; [apply invert_from_lower|].
    intros k [? ?]. simpl. split; lra.
Qed.

(** For a remove list that is sorted by start and well formed, merged or
    not, a point before the duration is kept exactly when no
    remove-interval covers it. *)
Lemma invert_from_exact D R : forall cur t,
  sorted_starts R -> Forall well_formed R -> cur <= t -> t < D ->
  (covered (invert_from cur R D) t <-> ~ covered R t).
Proof.
  induction R as [|r rs IH]; intros cur t Hso Hwf Hlo Hhi.
  - split; [intros _; apply covered_nil|]. intros _.
    rewrite invert_from_nil.
    destruct (flt_cases cur D) as [[-> H]|[-> H]]; [|lra].
    apply covered_cons. left. split; simpl; lra.
  - rewrite invert_from_cons.
    inversion Hwf as [|? ? Hr Hwf']; subst. unfold well_formed in Hr.
    inversion Hso as [|? ? Hso' Hrs]; subst.
    pose proof (pymax_ge_l cur (end_ r)) as Hc1.
    pose proof (pymax_ge_r cur (end_ r)) as Hc2.
    pose proof (pymax_cases cur (end_ r)) as Hcases.
    pose proof (invert_from_lower D rs (pymax cur (end_ r))) as Hk.
    remember (pymax cur (end_ r)) as cur' eqn:Ecur'. clear Ecur'.
    assert (Hlater : t < start r -> ~ covered rs t).
    { intros Hlt (j & Hj & [Hj1 Hj2]). rewrite Forall_forall in Hrs.
      specialize (Hrs j Hj). simpl in Hrs. lra. }
    rewrite covered_app, covered_cons.
    destruct (Qlt_le_dec t cur') as [Hbelow|Habove].
    + assert (~ covered (invert_from cur' rs D) t) as Hnk.
      { intros (j & Hj & [Hj1 Hj2]). rewrite Forall_forall in Hk.
        destruct (Hk j Hj). lra. }
      assert (cur' = end_ r) as ->
        by (destruct Hcases as [[E ?]|[E ?]]; [rewrite E in Hbelow; lra|done]).
      destruct (fgt_cases (start r) cur) as [[-> H]|[-> H]].
      * rewrite covered_cons. destruct (Qlt_le_dec t (start r)) as [Hl|Hr'].
        -- split; [|intros _; left; left; split; simpl; lra].
           intros _ [[? ?]|Hc]; [lra | by apply Hlater].
        -- split; [|intros Hn; exfalso; apply Hn; left; split; lra].
           intros [[[? ?]|Hc]|Hc]; simpl in *;
             [lra | by apply covered_nil in Hc | done].
      * split; [|intros Hn; exfalso; apply Hn; left; split; lra].
        intros [Hc|Hc]; [by apply covered_nil in Hc | done].
    + rewrite (IH cur' t Hso' Hwf' Habove Hhi).
      assert (~ covers r t) as Hnr by (intros [? ?]; lra).
      assert (~ covered (if fgt (start r) cur
                         then [mkInterval cur (start r)] else []) t) as Hnp.
      { destruct (fgt (start r) cur); [|apply covered_nil].
        intros [[? ?]|Hc]%covered_cons; simpl in *;
          [lra | by apply covered_nil in Hc]. }
      tauto.
Qed.

(** X3: the inversion does not need a merged remove-set, only one that is
    sorted by start with well-formed intervals (overlaps allowed): its
    keep-intervals then ascend without overlap, and a point of [0, D) is
    kept exactly when no remove-interval covers it. *)
Theorem invert_exact_on_sorted_input (R : list Interval) (D : Q) :
  sorted_starts R -> Forall well_formed R ->
  ascending_disjoint (_invert_ranges R D) /\
  (forall t, 0 <= t -> t < D ->
     (covered (_invert_ranges R D) t <-> ~ covered R t)).
Proof.
  intros Hso Hwf. rewrite invert_ranges_from. split.
  - by apply invert_from_ascending.
  - intros t H0 Ht. by apply invert_from_exact.
Qed.

Lemma invert_exact_on_sorted_input_witness :
  let R := [mkInterval 1 6; mkInterval 2 3; mkInterval 5 8] in
  ascending_disjoint (_invert_ranges R 10) /\
  (forall t, 0 <= t -> t < 10 ->
     (covered (_invert_ranges R 10) t <-> ~ covered R t)).
Proof.
  apply (invert_exact_on_sorted_input
           [mkInterval 1 6; mkInterval 2 3; mkInterval 5 8] 10).
  - repeat constructor; simpl; lra.
  - repeat constructor; unfold well_formed; simpl; lra.
Defined.

(** ** [_coalesce_ranges]: what it selects and when it collapses *)

Lemma loop_sublist eps rs : forall h merged,
  exists tl, (Coalesce.loop eps h merged rs).2 = merged ++ tl /\
             tl `sublist_of` rs.
Proof.
  induction rs as [|r rs IH]; intros h merged; simpl.
  - exists []. by rewrite app_nil_r.
  - destruct (last merged) as [lst|];
      [|exists []; split; [by rewrite app_nil_r | apply sublist_nil_l]].
    destruct (fle _ _).
    + destruct (IH (set_end h lst (pymax (get_end h lst) (get_end h r))) merged)
        as (tl & -> & Hs).
      exists tl. split; [done|]. by apply sublist_cons.
    + destruct (IH h (merged ++ [r])) as (tl & -> & Hs).
      exists (r :: tl). split; [by rewrite <- app_assoc|].
      by apply sublist_skip.
Qed.

(** X4: the intervals [_coalesce_ranges] returns are a subsequence of its
    input in stably sorted order: nothing is duplicated, reordered or
    invented.  The output is never longer than the input and is empty only
    for an empty input. *)
Theorem coalesce_selects_subsequence (h : heap) (ranges : list loc) (eps : Q) :
  let res := _coalesce_ranges h ranges eps in
  res.2 `sublist_of` Coalesce.sorted_by_start h ranges /\
  (length res.2 <= length ranges)%nat /\
  (res.2 = [] <-> ranges = []).
Proof.
  intros res.
  assert (res.2 `sublist_of` Coalesce.sorted_by_start h ranges /\
          (res.2 = [] <-> ranges = [])) as [Hs He].
  { subst res. unfold _coalesce_ranges. destruct ranges as [|x ranges].
    - simpl. split; [constructor | done].
    - pose proof (sorted_by_start_perm h (x :: ranges)) as HP.
      destruct (Coalesce.sorted_by_start h (x :: ranges)) as [|r0 rest].
      + by apply Permutation_nil_cons in HP.
      + destruct (loop_sublist eps rest h [r0]) as (tl & -> & Hs).
        split; [by apply sublist_skip | done]. }
  split; [done|]. split; [|done].
  apply sublist_length in Hs.
  by rewrite (Permutation_length (sorted_by_start_perm h ranges)) in Hs.
Qed.

(** A chain of touching intervals is folded into its head. *)
Lemma loop_chain eps h0 r0 rest : forall h,
  (forall x, x <> r0 -> h !!! x = h0 !!! x) ->
  get_start h r0 = get_start h0 r0 ->
  get_end h0 r0 <= get_end h r0 ->
  chained eps (get_end h r0) (deref h0 rest) ->
  (Coalesce.loop eps h [r0] rest).2 = [r0] /\
  (Coalesce.loop eps h [r0] rest).1 !!! r0 =
    mkInterval (get_start h0 r0) (max_end (get_end h r0) (deref h0 rest)).
Proof.
  induction rest as [|r rest IH]; intros h Hoth Hst Hge Hch; simpl in *.
  - split; [done|]. unfold get_start, get_end in *. rewrite <- Hst.
    by destruct (h !!! r0).
  - destruct Hch as [Hle Hch].
    assert (get_start h r = start (h0 !!! r)) as Hsr.
    { destruct (decide (r = r0)) as [->|Hne]; [done|].
      unfold get_start. by rewrite Hoth. }
    assert (pymax (get_end h r0) (get_end h r)
            = pymax (get_end h r0) (end_ (h0 !!! r))) as Hmax.
    { destruct (decide (r = r0)) as [->|Hne];
        [|unfold get_end; by rewrite (Hoth r)].
      change (end_ (h0 !!! r0)) with (get_end h0 r0).
      destruct (pymax_cases (get_end h r0) (get_end h r0)) as [[-> _]|[-> _]];
        destruct (pymax_cases (get_end h r0) (get_end h0 r0))
          as [[-> _]|[_ ?]]; try done; lra. }
    destruct (fle_cases (get_start h r) (get_end h r0 + eps)) as [[-> _]|[_ H]];
      [|rewrite Hsr in H; lra].
    rewrite Hmax.
    set (e' := pymax (get_end h r0) (end_ (h0 !!! r))).
    destruct (IH (set_end h r0 e')) as [IH1 IH2].
    + intros x Hx. unfold set_end. rewrite lookup_total_insert_ne by done.
      by apply Hoth.
    + by rewrite get_start_set_end.
    + rewrite get_end_set_end_eq. subst e'.
      pose proof (pymax_ge_l (get_end h r0) (end_ (h0 !!! r))). lra.
    + by rewrite get_end_set_end_eq.
    + split; [done|]. rewrite IH2. by rewrite get_end_set_end_eq.
Qed.

(** X5: merging is transitive.  When the input is sorted by start and
    every interval after the first starts within epsilon of the largest end
    seen so far, [_coalesce_ranges] returns the first interval alone, its
    end raised to the largest end of the chain. *)
Theorem coalesce_chain_collapses (h : heap) (r0 : loc) (rest : list loc)
    (eps : Q) :
  StronglySorted (fun a b => get_start h a <= get_start h b) (r0 :: rest) ->
  chained eps (get_end h r0) (deref h rest) ->
  let res := _coalesce_ranges h (r0 :: rest) eps in
  res.2 = [r0] /\
  deref res.1 res.2 =
    [mkInterval (get_start h r0) (max_end (get_end h r0) (deref h rest))].
Proof.
  intros Hso Hch res. subst res. unfold _coalesce_ranges.
  rewrite sorted_by_start_id by done.
  destruct (loop_chain eps h r0 rest h) as [H1 H2]; try done; [lra|].
  split; [done|]. rewrite H1. simpl. by rewrite H2.
Qed.

Lemma coalesce_chain_collapses_witness :
  let h := store_of [mkInterval 0 2; mkInterval 2 5; mkInterval 4 6] in
  let res := _coalesce_ranges h [0%nat; 1%nat; 2%nat] default_eps in
  res.2 = [0%nat] /\
  deref res.1 res.2 =
    [mkInterval (get_start h 0%nat)
       (max_end (get_end h 0%nat) (deref h [1%nat; 2%nat]))].
Proof.
  apply (coalesce_chain_collapses
           (store_of [mkInterval 0 2; mkInterval 2 5; mkInterval 4 6])
           0%nat [1%nat; 2%nat] default_eps).
  - repeat constructor; vm_compute; discriminate.
  - vm_compute. repeat split; discriminate.
Defined.

(** ** [auto_edit_video] without removals *)


(** ** The silence parser: what it depends on and what it can emit *)

Section silence_more.
Import Silence.

Lemma digits_val_nonneg s : forall acc n,
  (0 <= acc)%Z -> digits_val acc s = Some n -> (0 <= n)%Z.
Proof.
  induction s as [|c s IH]; intros acc n Hacc H; simpl in H.
  - by inversion H; subst.
  - destruct (is_digit c); [|done]. eapply IH; [|exact H]. lia.
Qed.

Lemma py_float_nonneg g q : py_float g = inr q -> 0 <= q.
Proof.
  unfold py_float. destruct (split_dot g) as [ip fp].
  destruct (String.length ip + String.length (default "" fp))%nat as [|len];
    [done|].
  destruct (digits_val 0 (ip +:+ default "" fp)) as [v|] eqn:E; [|done].
  intros H. inversion H; subst. rewrite Qred_correct.
  apply digits_val_nonneg in E; [|lia]. unfold Qle. simpl. lia.
Qed.

(** The loop body looks at a line only through the two pattern matches. *)
Lemma on_line_marks cs sil l1 l2 :
  _SILENCE_RE_START l1 = _SILENCE_RE_START l2 ->
  _SILENCE_RE_END l1 = _SILENCE_RE_END l2 ->
  on_line cs sil l1 = on_line cs sil l2.
Proof. unfold on_line. by intros -> ->. Qed.

Lemma on_line_no_marker cs sil l :
  has_marker l = false -> on_line cs sil l = inr (cs, sil).
Proof.
  unfold has_marker, on_line. intros [H1 H2]%orb_false_elim.
  apply bool_decide_eq_false in H1, H2.
  destruct (_SILENCE_RE_START l); [exfalso; apply H1; by eexists|].
  destruct (_SILENCE_RE_END l); [exfalso; apply H2; by eexists|]. done.
Qed.

Lemma loop_filter lines : forall cs sil,
  loop cs sil lines = loop cs sil (List.filter has_marker lines).
Proof.
  induction lines as [|l lines IH]; intros cs sil; simpl; [done|].
  destruct (has_marker l) eqn:E; simpl.
  - destruct (on_line cs sil l) as [?|[cs' sil']]; simpl; [done | apply IH].
  - rewrite on_line_no_marker by done. simpl. apply IH.
Qed.

Lemma loop_marks lines1 : forall lines2 cs sil,
  map (fun l => (_SILENCE_RE_START l, _SILENCE_RE_END l)) lines1
    = map (fun l => (_SILENCE_RE_START l, _SILENCE_RE_END l)) lines2 ->
  loop cs sil lines1 = loop cs sil lines2.
Proof.
  induction lines1 as [|l1 lines1 IH]; intros [|l2 lines2] cs sil H;
    simpl in *; try done.
  inversion H as [[H1 H2 H3]]. rewrite (on_line_marks cs sil l1 l2) by done.
  destruct (on_line cs sil l2) as [?|[cs' sil']]; simpl; [done|].
  by apply IH.
Qed.

(** One line: how the emitted list and the pending start can change. *)
Lemma on_line_effect cs sil l cs' sil' :
  on_line cs sil l = inr (cs', sil') ->
  (sil' = sil /\
   (cs' = cs \/
    exists g t, _SILENCE_RE_START l = Some g /\ py_float g = inr t /\
                cs' = Some t)) \/
  (exists s g e, _SILENCE_RE_END l = Some g /\ py_float g = inr e /\
     cs' = None /\ sil' = sil ++ [mkInterval s e] /\
     (cs = Some s /\ _SILENCE_RE_START l = None \/
      exists g1, _SILENCE_RE_START l = Some g1 /\ py_float g1 = inr s)).
Proof.
  unfold on_line. intros H.
  destruct (_SILENCE_RE_START l) as [g1|] eqn:E1;
    [destruct (py_float g1) as [?|t] eqn:F1; [done|]|]; simpl in H.
  - destruct (_SILENCE_RE_END l) as [g2|] eqn:E2.
    + destruct (py_float g2) as [?|e] eqn:F2; [done|]. inversion H; subst.
      right. exists t, g2, e. repeat split; try done. right. by exists g1.
    + inversion H; subst. left. split; [done|]. right. by exists g1, t.
  - destruct (_SILENCE_RE_END l) as [g2|] eqn:E2.
    + destruct cs as [s|].
      * destruct (py_float g2) as [?|e] eqn:F2; [done|]. inversion H; subst.
        right. exists s, g2, e. repeat split; try done. by left.
      * inversion H; subst. left. by split; [|left].
    + inversion H; subst. left. by split; [|left].
Qed.

Lemma loop_emits all_lines lines : forall cs sil out,
  (forall l, l ∈ lines -> l ∈ all_lines) ->
  (forall s, cs = Some s -> start_stamp all_lines s) ->
  Forall (fun i => start_stamp all_lines (start i) /\
                   end_stamp all_lines (end_ i)) sil ->
  loop cs sil lines = inr out ->
  Forall (fun i => start_stamp all_lines (start i) /\
                   end_stamp all_lines (end_ i)) out /\
  (length out <= length sil + count_matches _SILENCE_RE_END lines)%nat /\
  (length out + (match cs with Some _ => 0 | None => 1 end)
     <= length sil + 1 + count_matches _SILENCE_RE_START lines)%nat.
Proof.
  induction lines as [|l lines IH]; intros cs sil out Hsub Hcs Hsil H;
    simpl in H.
  - inversion H; subst. unfold count_matches. simpl.
    split; [done|]. split; [lia|]. destruct cs; lia.
  - destruct (on_line cs sil l) as [?|[cs' sil']] eqn:E; [done|].
    simpl in H. assert (l ∈ all_lines) as Hl by (apply Hsub; by left).
    assert (forall x, x ∈ lines -> x ∈ all_lines) as Hsub'
      by (intros x Hx; apply Hsub; by right).
    unfold count_matches in *. simpl.
    apply on_line_effect in E
      as [[-> [->|(g & t & E1 & F1 & ->)]]
         |(s & g & e & E2 & F2 & -> & -> & Hs)].
    + destruct (IH cs sil out Hsub' Hcs Hsil H) as (I1 & I2 & I3).
      split; [done|].
      destruct (bool_decide (is_Some (_SILENCE_RE_END l)));
        destruct (bool_decide (is_Some (_SILENCE_RE_START l))); simpl; lia.
    + destruct (IH (Some t) sil out Hsub') as (I1 & I2 & I3); try done.
      { intros s [= <-]. by exists l, g. }
      split; [done|]. rewrite E1.
      rewrite (bool_decide_eq_true_2 (is_Some (Some g))) by by eexists.
      destruct (bool_decide (is_Some (_SILENCE_RE_END l))); simpl;
        destruct cs; lia.
    + destruct (IH None (sil ++ [mkInterval s e]) out Hsub') as (I1 & I2 & I3);
        try done.
      { apply Forall_app. split; [done|]. constructor; [|constructor].
        simpl. split; [|by exists l, g].
        destruct Hs as [[Hc _]|(g1 & E1 & F1)]; [by apply Hcs|by exists l, g1]. }
      rewrite length_app in I2, I3. simpl in I2, I3.
      split; [done|]. rewrite E2.
      rewrite (bool_decide_eq_true_2 (is_Some (Some g))) by by eexists.
      simpl. split; [lia|].
      destruct Hs as [[-> E1]|(g1 & E1 & F1)]; rewrite E1.
      * rewrite bool_decide_eq_false_2 by (by intros [? ?]). simpl. lia.
      * rewrite (bool_decide_eq_true_2 (is_Some (Some g1))) by by eexists.
        simpl. destruct cs; lia.
Qed.

End silence_more.

(** X7: the result of the silence parser depends on a line only through
    what the two patterns find on it: lines on which neither pattern
    matches can be removed without changing the result, and two streams
    whose lines give the same matches give the same result (the same
    intervals or the same error). *)
Theorem silence_parser_reads_markers_only (text : string) :
  Silence.detect_silence_intervals text
    = Silence.loop None [] (List.filter has_marker (Silence.splitlines text)) /\
  (forall text',
     map (fun l => (Silence._SILENCE_RE_START l, Silence._SILENCE_RE_END l))
         (Silence.splitlines text)
     = map (fun l => (Silence._SILENCE_RE_START l, Silence._SILENCE_RE_END l))
           (Silence.splitlines text') ->
     Silence.detect_silence_intervals text
       = Silence.detect_silence_intervals text').
Proof.
  unfold Silence.detect_silence_intervals. split.
  - apply loop_filter.
  - intros text' H. by apply loop_marks.
Qed.

(** X8: every interval the silence parser returns is made of timestamps of
    the stream: its start is the value of a start marker and its end the
    value of an end marker, both at least 0 (a sign is never read).  There
    are no more intervals than lines with a start marker, and no more than
    lines with an end marker. *)
Theorem silence_parser_emits_stream_timestamps (text : string)
    (out : list Interval) :
  Silence.detect_silence_intervals text = inr out ->
  Forall (fun i => start_stamp (Silence.splitlines text) (start i) /\
                   end_stamp (Silence.splitlines text) (end_ i) /\
                   0 <= start i /\ 0 <= end_ i) out /\
  (length out <= count_matches Silence._SILENCE_RE_START
                   (Silence.splitlines text))%nat /\
  (length out <= count_matches Silence._SILENCE_RE_END
                   (Silence.splitlines text))%nat.
Proof.
  unfold Silence.detect_silence_intervals. intros H.
  destruct (loop_emits (Silence.splitlines text) (Silence.splitlines text)
              None [] out) as (H1 & H2 & H3); try done.
  simpl in *. split; [|split; lia].
  eapply Forall_impl; [exact H1|].
  intros i [(l1 & g1 & M1 & E1 & F1) (l2 & g2 & M2 & E2 & F2)].
  split; [by exists l1, g1|]. split; [by exists l2, g2|].
  split; eapply py_float_nonneg; eauto.
Qed.

Lemma silence_parser_emits_stream_timestamps_witness :
  Forall (fun i => start_stamp (Silence.splitlines Silence.example_stream) (start i) /\
                   end_stamp (Silence.splitlines Silence.example_stream) (end_ i) /\
                   0 <= start i /\ 0 <= end_ i) [mkInterval 1 (5 # 2)] /\
  (length [mkInterval 1 (5 # 2)]
     <= count_matches Silence._SILENCE_RE_START
          (Silence.splitlines Silence.example_stream))%nat /\
  (length [mkInterval 1 (5 # 2)]
     <= count_matches Silence._SILENCE_RE_END
          (Silence.splitlines Silence.example_stream))%nat.
Proof.
  apply (silence_parser_emits_stream_timestamps Silence.example_stream
           [mkInterval 1 (5 # 2)]).
  vm_compute. reflexivity.
Defined.

(** ** Strings *)

Lemma str_app_cons c a b : String c a +:+ b = String c (a +:+ b).
Proof. reflexivity. Qed.

Lemma str_app_nil_l s : EmptyString +:+ s = s.
Proof. reflexivity. Qed.

Lemma str_app_nil_r s : s +:+ EmptyString = s.
Proof.
  induction s as [|c s IH]; [done|]. by rewrite str_app_cons, IH.
Qed.

Lemma str_app_assoc a b c : (a +:+ b) +:+ c = a +:+ (b +:+ c).
Proof.
  induction a as [|x a IH]; [done|]. by rewrite !str_app_cons, IH.
Qed.

Lemma strip_prefix_spec p : forall s r,
  Silence.strip_prefix p s = Some r <-> s = p +:+ r.
Proof.
  induction p as [|a p IH]; intros s r; simpl.
  - rewrite str_app_nil_l. split; [by intros [= ->] | by intros ->].
  - destruct s as [|b s]; [by split|]. rewrite str_app_cons.
    destruct (Ascii.eqb_spec a b) as [->|Hne].
    + rewrite IH. split; [by intros -> | by intros [= ->]].
    + split; [done|]. intros [= -> _]. done.
Qed.

Lemma contains_spec s sub : PyStr.contains s sub = true <-> occurs_in sub s.
Proof.
  unfold occurs_in. split.
  - induction s as [|c s IH]; simpl.
    + destruct (Silence.strip_prefix sub EmptyString) as [r|] eqn:E; [|done].
      intros _. apply strip_prefix_spec in E. by exists EmptyString, r.
    + destruct (Silence.strip_prefix sub (String c s)) as [r|] eqn:E.
      * intros _. apply strip_prefix_spec in E. by exists EmptyString, r.
      * intros (pre & post & ->)%IH. by exists (String c pre), post.
  - intros (pre & post & ->). induction pre as [|c pre IH].
    + rewrite str_app_nil_l.
      assert (Silence.strip_prefix sub (sub +:+ post) = Some post) as E
        by by apply strip_prefix_spec.
      destruct sub, post; simpl in *; by rewrite ?E.
    + rewrite str_app_cons. simpl.
      by destruct (Silence.strip_prefix sub (String c (pre +:+ sub +:+ post))).
Qed.

Lemma lower_app a b : PyStr.lower (a +:+ b) = PyStr.lower a +:+ PyStr.lower b.
Proof.
  induction a as [|c a IH]; [done|].
  rewrite str_app_cons. simpl. by rewrite IH.
Qed.

(** ** [detect_fillers_from_segments] *)

Lemma fillers_loop_acc segments : forall result,
  Transcribe.fillers_loop result segments =
    result ++ map segment_interval
      (List.filter (fun seg => mentions_filler (Transcribe.seg_text seg))
                   segments).
Proof.
  induction segments as [|seg rest IH]; intros result; simpl.
  - by rewrite app_nil_r.
  - rewrite IH. unfold mentions_filler.
    destruct (Transcribe.any_filler _); simpl; [|done].
    by rewrite <- app_assoc.
Qed.

Lemma any_filler_spec lower :
  Transcribe.any_filler lower = true <->
  exists f, f ∈ Transcribe.FILLERS /\ occurs_in f lower.
Proof.
  unfold Transcribe.any_filler. rewrite existsb_exists. split.
  - intros (f & Hf & Hc). exists f.
    split; [by apply list_elem_of_In | by apply contains_spec].
  - intros (f & Hf & Hc). exists f.
    split; [by apply list_elem_of_In | by apply contains_spec].
Qed.

(** X9: [detect_fillers_from_segments] reports, in input order, one
    interval for each segment whose text mentions a filler, and nothing
    else: the result of a concatenation is the concatenation of the
    results, and there are never more intervals than segments. *)
Theorem detect_fillers_selects_in_order (a b : list Transcribe.Segment) :
  Transcribe.detect_fillers_from_segments a =
    map segment_interval
      (List.filter (fun seg => mentions_filler (Transcribe.seg_text seg)) a) /\
  Transcribe.detect_fillers_from_segments (a ++ b) =
    Transcribe.detect_fillers_from_segments a ++
    Transcribe.detect_fillers_from_segments b /\
  (length (Transcribe.detect_fillers_from_segments a) <= length a)%nat.
Proof.
  unfold Transcribe.detect_fillers_from_segments.
  rewrite !fillers_loop_acc. simpl.
  split; [done|]. split.
  - by rewrite List.filter_app, map_app.
  - rewrite length_map. apply List.filter_length_le.
Qed.

(** X10: a segment is reported exactly when its text, lower-cased,
    contains one of the seven fillers as a substring: the letter case does
    not matter and no word boundary is looked for, so a filler inside a
    longer word counts.  A segment without text is never reported, and a
    reported segment without [start] or [end] is reported at 0. *)
Theorem detect_fillers_matches_substrings (seg : Transcribe.Segment) :
  (Transcribe.detect_fillers_from_segments [seg] = [segment_interval seg] <->
   exists f, f ∈ Transcribe.FILLERS /\
     occurs_in f (PyStr.lower (default EmptyString (Transcribe.seg_text seg)))) /\
  (forall pre w post f,
     Transcribe.seg_text seg = Some (pre +:+ w +:+ post) ->
     f ∈ Transcribe.FILLERS -> PyStr.lower w = f ->
     Transcribe.detect_fillers_from_segments [seg] = [segment_interval seg]) /\
  (Transcribe.seg_text seg = None ->
     Transcribe.detect_fillers_from_segments [seg] = []) /\
  (Transcribe.seg_start seg = None -> start (segment_interval seg) = 0) /\
  (Transcribe.seg_end seg = None -> end_ (segment_interval seg) = 0).
Proof.
  assert (Hiff :
    Transcribe.detect_fillers_from_segments [seg] = [segment_interval seg] <->
    exists f, f ∈ Transcribe.FILLERS /\
      occurs_in f (PyStr.lower (default EmptyString (Transcribe.seg_text seg)))).
  { rewrite <- any_filler_spec.
    unfold Transcribe.detect_fillers_from_segments. simpl.
    destruct (Transcribe.any_filler _); simpl; by split. }
  split; [done|]. split; [|split; [|split]].
  - intros pre w post f Ht Hf Hw. apply Hiff. exists f. split; [done|].
    rewrite Ht. simpl. rewrite !lower_app, Hw.
    by exists (PyStr.lower pre), (PyStr.lower post).
  - intros Ht. unfold Transcribe.detect_fillers_from_segments. simpl.
    by rewrite Ht.
  - unfold segment_interval. by intros ->.
  - unfold segment_interval. by intros ->.
Qed.

(** ** [transcribe_video_to_text] *)

Lemma collect_acc it : forall segments_list full_text_parts,
  Transcribe.collect segments_list full_text_parts it =
    (segments_list ++
       map (fun s => Transcribe.mkSegment
                       (Some (Transcribe.ws_start s)) (Some (Transcribe.ws_end s))
                       (Some (default EmptyString (Transcribe.ws_text s)))) it,
     full_text_parts ++
       map (fun s => default EmptyString (Transcribe.ws_text s)) it).
Proof.
  induction it as [|s it IH]; intros sl parts; simpl.
  - by rewrite !app_nil_r.
  - rewrite IH. by rewrite <- !app_assoc.
Qed.

Lemma transcribe_result {W} (env : Transcribe.WhisperEnv W) st path st' full segs :
  Transcribe.transcribe_video_to_text env st path = (st', inr (full, segs)) ->
  exists m ws, st' = Some m /\ Transcribe.run_model env m path = inr ws /\
    segs = map (fun s => Transcribe.mkSegment
                           (Some (Transcribe.ws_start s))
                           (Some (Transcribe.ws_end s))
                           (Some (default EmptyString (Transcribe.ws_text s)))) ws /\
    full = Transcribe.join_text
             (map (fun s => default EmptyString (Transcribe.ws_text s)) ws).
Proof.
  unfold Transcribe.transcribe_video_to_text. intros H.
  destruct (match st with Some m => inr m | None => _ end) as [e|m]; [done|].
  destruct (Transcribe.run_model env m path) as [e|ws] eqn:E; [done|].
  rewrite collect_acc in H. simpl in H. inversion H; subst. by exists m, ws.
Qed.

(** X11: the segments that [transcribe_video_to_text] returns always carry
    the three keys, one segment per segment of the model and in the same
    order, so [detect_fillers_from_segments] never falls back on a default
    for them: applied to the returned segments it gives the true start and
    end of exactly the model segments whose text mentions a filler. *)
Theorem transcribed_segments_feed_fillers {W} (env : Transcribe.WhisperEnv W)
    (st st' : option W) (path full_text : string)
    (segments : list Transcribe.Segment) :
  Transcribe.transcribe_video_to_text env st path
    = (st', inr (full_text, segments)) ->
  exists m ws,
    st' = Some m /\ Transcribe.run_model env m path = inr ws /\
    length segments = length ws /\
    Forall (fun seg => is_Some (Transcribe.seg_start seg) /\
                       is_Some (Transcribe.seg_end seg) /\
                       is_Some (Transcribe.seg_text seg)) segments /\
    Transcribe.detect_fillers_from_segments segments =
      map (fun s => mkInterval (Transcribe.ws_start s) (Transcribe.ws_end s))
          (List.filter (fun s => mentions_filler (Transcribe.ws_text s)) ws).
Proof.
  intros (m & ws & -> & Hrun & -> & _)%transcribe_result.
  exists m, ws. split; [done|]. split; [done|].
  split; [by rewrite length_map|]. split.
  - apply Forall_forall. intros seg (s & -> & _)%list_elem_of_fmap.
    simpl. repeat split; by eexists.
  - unfold Transcribe.detect_fillers_from_segments.
    rewrite fillers_loop_acc. simpl. clear Hrun.
    unfold mentions_filler.
    induction ws as [|s ws IH]; simpl; [done|].
    destruct (Transcribe.any_filler _); simpl; by rewrite IH.
Qed.

Lemma transcribed_segments_feed_fillers_witness :
  exists m ws,
    Some ("base", "int8") = Some m /\
    Transcribe.run_model example_whisper m "a.mp4" = inr ws /\
    length [Transcribe.mkSegment (Some 0) (Some 2) (Some " Um, hello");
            Transcribe.mkSegment (Some 2) (Some 5) (Some " world ")]
      = length ws /\
    Forall (fun seg => is_Some (Transcribe.seg_start seg) /\
                       is_Some (Transcribe.seg_end seg) /\
                       is_Some (Transcribe.seg_text seg))
      [Transcribe.mkSegment (Some 0) (Some 2) (Some " Um, hello");
       Transcribe.mkSegment (Some 2) (Some 5) (Some " world ")] /\
    Transcribe.detect_fillers_from_segments
      [Transcribe.mkSegment (Some 0) (Some 2) (Some " Um, hello");
       Transcribe.mkSegment (Some 2) (Some 5) (Some " world ")] =
      map (fun s => mkInterval (Transcribe.ws_start s) (Transcribe.ws_end s))
          (List.filter (fun s => mentions_filler (Transcribe.ws_text s)) ws).
Proof.
  apply (transcribed_segments_feed_fillers example_whisper None
           (Some ("base", "int8")) "a.mp4" "Um, hello world").
  vm_compute. reflexivity.
Defined.

(** X12: the model is a lazily loaded singleton.  Once a model is held, a
    call keeps it and never reads the [WHISPER_*] variables or the loader
    again, so its result only depends on the held model and the file; over
    a whole session, whatever the variables say at later calls, the model
    held at the end is the one held at the beginning.  A call that finds
    no model and fails to load one leaves none behind. *)
Theorem whisper_model_is_loaded_once {W} (m : W)
    (calls : list (Transcribe.WhisperEnv W * string)) :
  transcribe_session (Some m) calls = Some m /\
  (forall (env env' : Transcribe.WhisperEnv W) path,
     Transcribe.run_model env = Transcribe.run_model env' ->
     Transcribe.transcribe_video_to_text env (Some m) path
       = Transcribe.transcribe_video_to_text env' (Some m) path) /\
  (forall (env : Transcribe.WhisperEnv W) path e,
     Transcribe.load_model env
       (default "base" (Transcribe.getenv env "WHISPER_MODEL"))
       (default "int8" (Transcribe.getenv env "WHISPER_COMPUTE")) = inl e ->
     Transcribe.transcribe_video_to_text env None path = (None, inl e)).
Proof.
  split; [|split].
  - induction calls as [|[env path] calls IH]; simpl; [done|].
    replace (Transcribe.transcribe_video_to_text env (Some m) path).1
      with (Some m); [done|].
    unfold Transcribe.transcribe_video_to_text.
    destruct (Transcribe.run_model env m path) as [e|ws]; simpl; [done|].
    by destruct (Transcribe.collect [] [] ws).
  - intros env env' path Hrun.
    unfold Transcribe.transcribe_video_to_text. by rewrite Hrun.
  - intros env path e He.
    unfold Transcribe.transcribe_video_to_text. by rewrite He.
Qed.

(** White space at the two ends. *)
Lemma rstrip_idem s : PyStr.rstrip (PyStr.rstrip s) = PyStr.rstrip s.
Proof.
  induction s as [|c s IH]; simpl; [done|].
  destruct (PyStr.rstrip s) as [|d r] eqn:E.
  - destruct (PyStr.is_space c) eqn:Ec; simpl; [done|]. by rewrite Ec.
  - change (PyStr.rstrip (String c (String d r)))
      with (match PyStr.rstrip (String d r) with
            | EmptyString =>
                if PyStr.is_space c then EmptyString else String c EmptyString
            | r' => String c r'
            end).
    by rewrite IH.
Qed.

Lemma lstrip_fixed s :
  match s with
  | EmptyString => True
  | String c _ => PyStr.is_space c = false
  end -> PyStr.lstrip s = s.
Proof. destruct s as [|c s]; simpl; [done|]. by intros ->. Qed.

Lemma lstrip_head s :
  match PyStr.lstrip s with
  | EmptyString => True
  | String c _ => PyStr.is_space c = false
  end.
Proof.
  induction s as [|c s IH]; simpl; [done|].
  destruct (PyStr.is_space c) eqn:E; [done|]. simpl. done.
Qed.

Lemma rstrip_head s :
  match s with
  | EmptyString => True
  | String c _ => PyStr.is_space c = false
  end ->
  match PyStr.rstrip s with
  | EmptyString => True
  | String c _ => PyStr.is_space c = false
  end.
Proof.
  destruct s as [|c s]; simpl; [done|]. intros Hc.
  destruct (PyStr.rstrip s); [by rewrite Hc|done].
Qed.

Lemma lstrip_blank s : blank s = true -> PyStr.lstrip s = EmptyString.
Proof.
  induction s as [|c s IH]; simpl; [done|].
  intros [-> Hb]%andb_true_iff. by apply IH.
Qed.

Lemma blank_app a b : blank (a +:+ b) = blank a && blank b.
Proof.
  induction a as [|c a IH]; [done|]. rewrite str_app_cons. simpl.
  by rewrite IH, andb_assoc.
Qed.

Lemma blank_concat l :
  Forall (fun s => blank s = true) l -> blank (String.concat " " l) = true.
Proof.
  induction 1 as [|s l Hs Hl IH]; [done|].
  destruct l as [|s' l]; [done|].
  change (String.concat " " (s :: s' :: l))
    with (s +:+ " " +:+ String.concat " " (s' :: l)).
  by rewrite !blank_app, Hs, IH.
Qed.

(** X13: the transcript [" ".join(t.strip() ...).strip()] never begins or
    ends with white space: stripping it again on either side changes
    nothing.  When every piece is empty after stripping (a source without
    speech), the transcript is the empty string, however many pieces there
    are. *)
Theorem transcript_is_trimmed (full_text_parts : list string) :
  let full_text := Transcribe.join_text full_text_parts in
  PyStr.lstrip full_text = full_text /\
  PyStr.rstrip full_text = full_text /\
  PyStr.strip full_text = full_text /\
  (Forall (fun t => PyStr.strip t = EmptyString) full_text_parts ->
   full_text = EmptyString).
Proof.
  intros full_text. subst full_text. unfold Transcribe.join_text.
  set (joined := String.concat " " (map PyStr.strip full_text_parts)).
  assert (PyStr.lstrip (PyStr.strip joined) = PyStr.strip joined) as Hl.
  { apply lstrip_fixed. unfold PyStr.strip. apply rstrip_head, lstrip_head. }
  assert (PyStr.rstrip (PyStr.strip joined) = PyStr.strip joined) as Hr
    by apply rstrip_idem.
  split; [done|]. split; [done|].
  split; [unfold PyStr.strip at 1; by rewrite Hl, Hr|].
  intros Hall. unfold PyStr.strip. rewrite lstrip_blank; [done|].
  subst joined. apply blank_concat. apply Forall_forall.
  intros s (t & -> & Ht)%list_elem_of_fmap.
  rewrite Forall_forall in Hall. by rewrite (Hall t Ht).
Qed.

(** ** [analyze_vibe_safe] *)

Lemma dict_get_set d k v k' :
  Vibe.dict_get (Vibe.dict_set d k v) k' =
    if String.eqb k k' then Some v else Vibe.dict_get d k'.
Proof.
  induction d as [|[k0 v0] d IH]; simpl.
  - done.
  - destruct (String.eqb_spec k0 k) as [->|Hne]; simpl.
    + by destruct (String.eqb k k').
    + rewrite IH. destruct (String.eqb_spec k0 k') as [->|Hne'].
      * destruct (String.eqb_spec k k') as [->|]; done.
      * done.
Qed.

Lemma dict_get_elem d k v :
  Vibe.dict_get d k = Some v -> (k, v) ∈ d.
Proof.
  induction d as [|[k0 v0] d IH]; simpl; [done|].
  destruct (String.eqb_spec k0 k) as [->|Hne].
  - intros [= ->]. apply list_elem_of_here.
  - intros H. apply list_elem_of_further. by apply IH.
Qed.

Lemma dict_get_none d k :
  Vibe.dict_get d k = None <-> k ∉ d.*1.
Proof.
  induction d as [|[k0 v0] d IH]; simpl.
  - split; [intros _; apply not_elem_of_nil | done].
  - rewrite not_elem_of_cons. destruct (String.eqb_spec k0 k) as [->|Hne].
    + split; [done | by intros [? _]].
    + rewrite IH. split; [by intros ? | by intros [_ ?]].
Qed.

Lemma dict_set_keys d k v :
  (Vibe.dict_set d k v).*1 = if decide (k ∈ d.*1) then d.*1 else d.*1 ++ [k].
Proof.
  induction d as [|[k0 v0] d IH]; [done|].
  cbn [Vibe.dict_set]. rewrite (fmap_cons fst (k0, v0) d). cbn [fst].
  destruct (String.eqb_spec k0 k) as [->|Hne].
  - rewrite (fmap_cons fst). cbn [fst].
    by rewrite decide_True by apply list_elem_of_here.
  - rewrite (fmap_cons fst), IH. cbn [fst].
    destruct (decide (k ∈ d.*1)) as [Hin|Hout].
    + by rewrite decide_True by by apply list_elem_of_further.
    + rewrite decide_False; [done|].
      rewrite not_elem_of_cons. by split.
Qed.

Lemma dict_set_nodup d k v : NoDup d.*1 -> NoDup (Vibe.dict_set d k v).*1.
Proof.
  intros Hd. rewrite dict_set_keys. destruct (decide (k ∈ d.*1)); [done|].
  apply NoDup_app. split; [done|]. split.
  - intros x Hx ->%list_elem_of_singleton. done.
  - apply NoDup_singleton.
Qed.

Lemma dict_get_of_elem d k v :
  NoDup d.*1 -> (k, v) ∈ d -> Vibe.dict_get d k = Some v.
Proof.
  induction d as [|[k0 v0] d IH]; simpl.
  - by intros _ ?%elem_of_nil.
  - intros [Hk0 Hd]%NoDup_cons. rewrite elem_of_cons. intros [[= -> ->]|Hin].
    + by rewrite String.eqb_refl.
    + destruct (String.eqb_spec k0 k) as [->|Hne]; [|by apply IH].
      exfalso. apply Hk0. apply list_elem_of_fmap. by exists (k, v).
Qed.

Lemma step_class emotions out :
  Vibe.step emotions out =
    Vibe.dict_set emotions (class_of out)
      (pymax (default 0 (Vibe.dict_get emotions (class_of out))) (score_of out)).
Proof.
  unfold Vibe.step, class_of, label_of, score_of.
  destruct (PyStr.contains _ "pos"); [done|].
  by destruct (PyStr.contains _ "neg").
Qed.

Lemma class_of_labels out :
  class_of out ∈ ["positive"; "negative"; "neutral"].
Proof.
  unfold class_of. destruct (PyStr.contains _ "pos"); [repeat constructor|].
  destruct (PyStr.contains _ "neg"); repeat constructor.
Qed.

(** What the loop has built after the outputs [res]. *)
Record vibe_inv (res : list Vibe.ClfOut) (d : Vibe.dict) : Prop := {
  vibe_keys : NoDup d.*1;
  vibe_absent : forall k,
    Vibe.dict_get d k = None -> forall out, out ∈ res -> class_of out <> k;
  vibe_present : forall k v,
    Vibe.dict_get d k = Some v ->
    (exists out, out ∈ res /\ class_of out = k) /\
    0 <= v /\
    (forall out, out ∈ res -> class_of out = k -> score_of out <= v) /\
    (v = 0 \/ exists out, out ∈ res /\ class_of out = k /\ v = score_of out)
}.

Lemma vibe_inv_build res : vibe_inv res (foldl Vibe.step [] res).
Proof.
  induction res as [|out res IH] using rev_ind.
  - split; simpl.
    + apply NoDup_nil_2.
    + by intros k _ out ?%elem_of_nil.
    + done.
  - rewrite foldl_app. simpl. rewrite step_class.
    set (d := foldl Vibe.step [] res) in *.
    set (k0 := class_of out).
    set (old := default 0 (Vibe.dict_get d k0)).
    assert (0 <= old /\
            (forall o, o ∈ res -> class_of o = k0 -> score_of o <= old) /\
            (old = 0 \/ exists o, o ∈ res /\ class_of o = k0 /\ old = score_of o))
      as (Hold0 & Holdmax & Holdis).
    { subst old. destruct (Vibe.dict_get d k0) as [v|] eqn:E; simpl.
      - by destruct (vibe_present _ _ IH _ _ E) as (_ & ? & ? & ?).
      - split; [lra|]. split; [|by left].
        intros o Ho Hc. by destruct (vibe_absent _ _ IH _ E o Ho). }
    split.
    + by apply dict_set_nodup, IH.
    + intros k. rewrite dict_get_set.
      destruct (String.eqb_spec k0 k) as [->|Hne]; [done|].
      intros Hnone o [Ho| ->%list_elem_of_singleton]%elem_of_app.
      * by apply (vibe_absent _ _ IH k).
      * done.
    + intros k v. rewrite dict_get_set.
      destruct (String.eqb_spec k0 k) as [<-|Hne].
      * intros [= <-]. split; [|split; [|split]].
        -- exists out. split; [apply elem_of_app; right; apply list_elem_of_here | done].
        -- pose proof (pymax_ge_l old (score_of out)). lra.
        -- intros o [Ho| ->%list_elem_of_singleton]%elem_of_app Hc.
           ++ pose proof (pymax_ge_l old (score_of out)).
              pose proof (Holdmax o Ho Hc). lra.
           ++ apply pymax_ge_r.
        -- destruct (pymax_cases old (score_of out)) as [[-> _]|[-> _]].
           ++ destruct Holdis as [?|(o & Ho & Hc & Hv)]; [by left|].
              right. exists o. split; [apply elem_of_app; by left | done].
           ++ right. exists out. split; [apply elem_of_app; right; apply list_elem_of_here | done].
      * intros E. destruct (vibe_present _ _ IH _ _ E)
          as ((o & Ho & Hc) & Hv0 & Hvmax & Hvis).
        split; [|split; [|split]].
        -- exists o. split; [apply elem_of_app; by left | done].
        -- done.
        -- intros o' [Ho'| ->%list_elem_of_singleton]%elem_of_app Hc'.
           ++ by apply Hvmax.
           ++ done.
        -- destruct Hvis as [?|(o' & Ho' & Hc' & Hv')]; [by left|].
           right. exists o'. split; [apply elem_of_app; by left | done].
Qed.

Lemma max_key_from_spec rest : forall best best_val,
  (Vibe.max_key_from best best_val rest = best /\
   Forall (fun p => p.2 <= best_val) rest) \/
  (exists pre v post,
     rest = pre ++ (Vibe.max_key_from best best_val rest, v) :: post /\
     best_val < v /\
     Forall (fun p => p.2 < v) pre /\ Forall (fun p => p.2 <= v) post).
Proof.
  induction rest as [|[k v] rest IH]; intros best bv; simpl.
  - left. by split.
  - destruct (fgt_cases v bv) as [[-> Hlt]|[-> Hle]].
    + right. destruct (IH k v) as [[-> Hall]|(pre & v' & post & E & Hv & Hpre & Hpost)].
      * exists [], v, rest. by repeat split.
      * exists ((k, v) :: pre), v', post. rewrite E at 1.
        split; [done|]. split; [lra|]. split; [|done].
        constructor; [done|]. done.
    + destruct (IH best bv) as [[-> Hall]|(pre & v' & post & E & Hv & Hpre & Hpost)].
      * left. split; [done|]. by constructor.
      * right. exists ((k, v) :: pre), v', post. rewrite E at 1.
        split; [done|]. split; [done|]. split; [|done].
        constructor; [simpl; lra | done].
Qed.

Lemma max_key_spec d k :
  Vibe.max_key d = Some k ->
  exists pre v post, d = pre ++ (k, v) :: post /\
    Forall (fun p => p.2 < v) pre /\ Forall (fun p => p.2 <= v) post.
Proof.
  destruct d as [|[k0 v0] rest]; simpl; [done|]. intros [= <-].
  destruct (max_key_from_spec rest k0 v0)
    as [[-> Hall]|(pre & v & post & E & Hv & Hpre & Hpost)].
  - by exists [], v0, rest.
  - exists ((k0, v0) :: pre), v, post. rewrite E at 1.
    split; [done|]. split; [|done]. by constructor.
Qed.

(** X14: when the classifier answers, [emotions] holds one entry for each
    class that some output falls in and no other, each key once; the value
    of a class is at least every score of that class and is one of them,
    except that it never goes below 0.0: a class whose scores are all
    negative is reported with 0.0. *)
Theorem vibe_emotions_are_class_maxima
    (clf : string -> pyexn + list Vibe.ClfOut) (text : string)
    (res : list Vibe.ClfOut) :
  clf text = inr res ->
  let emotions := Vibe.emotions (Vibe.analyze_vibe_safe clf text) in
  NoDup emotions.*1 /\
  (forall k, k ∈ emotions.*1 <-> exists out, out ∈ res /\ class_of out = k) /\
  (forall k v, Vibe.dict_get emotions k = Some v ->
     k ∈ ["positive"; "negative"; "neutral"] /\
     0 <= v /\
     (forall out, out ∈ res -> class_of out = k -> score_of out <= v) /\
     (v = 0 \/ exists out, out ∈ res /\ class_of out = k /\ v = score_of out)).
Proof.
  intros Hclf. unfold Vibe.analyze_vibe_safe. rewrite Hclf. simpl.
  pose proof (vibe_inv_build res) as I.
  split; [apply I|]. split.
  - intros k. split.
    + intros Hk. destruct (Vibe.dict_get (foldl Vibe.step [] res) k) as [v|] eqn:E.
      * by destruct (vibe_present _ _ I _ _ E) as (? & _).
      * by apply dict_get_none in E.
    + intros (out & Hout & Hc).
      destruct (decide (k ∈ (foldl Vibe.step [] res).*1)) as [|Hno]; [done|].
      apply dict_get_none in Hno. by destruct (vibe_absent _ _ I _ Hno out Hout).
  - intros k v E.
    destruct (vibe_present _ _ I _ _ E) as ((o & Ho & <-) & H0 & Hmax & His).
    split; [apply class_of_labels | done].
Qed.

Lemma vibe_emotions_are_class_maxima_witness :
  let emotions := Vibe.emotions (Vibe.analyze_vibe_safe example_clf "hello") in
  NoDup emotions.*1 /\
  (forall k, k ∈ emotions.*1 <->
     exists out, out ∈ [Vibe.mkClfOut (Some "POSITIVE") (Some (9 # 10));
                        Vibe.mkClfOut (Some "Negative") (Some (3 # 10));
                        Vibe.mkClfOut (Some "POSITIVE") (Some (1 # 2))] /\
                 class_of out = k) /\
  (forall k v, Vibe.dict_get emotions k = Some v ->
     k ∈ ["positive"; "negative"; "neutral"] /\
     0 <= v /\
     (forall out, out ∈ [Vibe.mkClfOut (Some "POSITIVE") (Some (9 # 10));
                         Vibe.mkClfOut (Some "Negative") (Some (3 # 10));
                         Vibe.mkClfOut (Some "POSITIVE") (Some (1 # 2))] ->
        class_of out = k -> score_of out <= v) /\
     (v = 0 \/
      exists out, out ∈ [Vibe.mkClfOut (Some "POSITIVE") (Some (9 # 10));
                         Vibe.mkClfOut (Some "Negative") (Some (3 # 10));
                         Vibe.mkClfOut (Some "POSITIVE") (Some (1 # 2))] /\
                  class_of out = k /\ v = score_of out)).
Proof.
  apply (vibe_emotions_are_class_maxima example_clf "hello"). reflexivity.
Defined.

(** X15: the summary is always one of the three class names.  When the
    classifier answers with at least one output it is a key of [emotions]
    whose value no other value exceeds, and among equal values the class
    that was met first in the outputs; when the classifier answers with no
    output the summary is "neutral" although [emotions] is empty; when
    anything raises, the answer is neutral with score 1.0. *)
Theorem vibe_summary_is_first_strongest
    (clf : string -> pyexn + list Vibe.ClfOut) (text : string) :
  let r := Vibe.analyze_vibe_safe clf text in
  Vibe.summary r ∈ ["positive"; "negative"; "neutral"] /\
  (forall e, clf text = inl e ->
     r = Vibe.mkVibeAnalysisResponse [("neutral", 1)] "neutral") /\
  (clf text = inr [] ->
     r = Vibe.mkVibeAnalysisResponse [] "neutral") /\
  (forall res, clf text = inr res -> res <> [] ->
     exists pre v post,
       Vibe.emotions r = pre ++ (Vibe.summary r, v) :: post /\
       Vibe.dict_get (Vibe.emotions r) (Vibe.summary r) = Some v /\
       Forall (fun p => p.2 < v) pre /\ Forall (fun p => p.2 <= v) post).
Proof.
  simpl. unfold Vibe.analyze_vibe_safe.
  destruct (clf text) as [e|res] eqn:Hclf; simpl.
  - split; [repeat constructor|]. split; [done|]. split; [done|]. done.
  - pose proof (vibe_inv_build res) as I.
    assert (forall k, Vibe.max_key (foldl Vibe.step [] res) = Some k ->
            exists pre v post,
              foldl Vibe.step [] res = pre ++ (k, v) :: post /\
              Vibe.dict_get (foldl Vibe.step [] res) k = Some v /\
              Forall (fun p => p.2 < v) pre /\ Forall (fun p => p.2 <= v) post)
      as Hmax.
    { intros k (pre & v & post & E & Hpre & Hpost)%max_key_spec.
      exists pre, v, post. split; [done|]. split; [|done].
      apply dict_get_of_elem; [apply I|]. rewrite E. apply elem_of_app; right; apply list_elem_of_here. }
    destruct (Vibe.max_key (foldl Vibe.step [] res)) as [k|] eqn:Ek.
    + destruct (Hmax k eq_refl) as (pre & v & post & E & Hget & Hpre & Hpost).
      split; [|split; [done|split]].
      * destruct (vibe_present _ _ I _ _ Hget) as ((o & _ & <-) & _).
        apply class_of_labels.
      * intros [= ->]. simpl in Ek. done.
      * intros res' [= <-] _. by exists pre, v, post.
    + split; [repeat constructor|]. split; [done|]. split.
      * by intros [= ->].
      * intros res' [= <-] Hne. exfalso.
        destruct res as [|o res] using rev_ind; [done|].
        rewrite foldl_app in Ek. simpl in Ek. rewrite step_class in Ek.
        destruct (foldl Vibe.step [] res) as [|[k0 v0] d]; simpl in Ek; [done|].
        by destruct (String.eqb k0 (class_of o)).
Qed.

(** X16: the class of an output is decided on its lower-cased label by
    substring tests in a fixed order: positive when it contains "pos",
    also when it contains "neg" as well; negative when it contains "neg"
    and not "pos"; neutral otherwise, which includes an output without a
    label.  The letter case of the label does not matter. *)
Theorem vibe_class_precedence (out : Vibe.ClfOut) :
  (class_of out = "positive" <-> occurs_in "pos" (label_of out)) /\
  (class_of out = "negative" <->
     occurs_in "neg" (label_of out) /\ ~ occurs_in "pos" (label_of out)) /\
  (class_of out = "neutral" <->
     ~ occurs_in "neg" (label_of out) /\ ~ occurs_in "pos" (label_of out)) /\
  (Vibe.out_label out = None -> class_of out = "neutral") /\
  (forall pre w post,
     Vibe.out_label out = Some (pre +:+ w +:+ post) ->
     PyStr.lower w = "pos" -> class_of out = "positive") /\
  (forall emotions,
     Vibe.step emotions out =
       Vibe.dict_set emotions (class_of out)
         (pymax (default 0 (Vibe.dict_get emotions (class_of out)))
                (score_of out))).
Proof.
  assert (class_of out = "positive" <-> occurs_in "pos" (label_of out)) as Hpos.
  { rewrite <- contains_spec. unfold class_of.
    destruct (PyStr.contains _ "pos"); [done|].
    by destruct (PyStr.contains _ "neg"). }
  split; [done|]. split; [|split; [|split; [|split]]].
  - rewrite <- !contains_spec. unfold class_of.
    destruct (PyStr.contains _ "pos"); [by split; [|intros [_ ?]]|].
    destruct (PyStr.contains _ "neg"); split; try done. by intros [? _].
  - rewrite <- !contains_spec. unfold class_of.
    destruct (PyStr.contains _ "pos"); [by split; [|intros [_ ?]]|].
    destruct (PyStr.contains _ "neg"); split; try done. by intros [? _].
  - intros Hl. unfold class_of, label_of. by rewrite Hl.
  - intros pre w post Hl Hw. apply Hpos. unfold label_of. rewrite Hl. simpl.
    rewrite !lower_app, Hw. by exists (PyStr.lower pre), (PyStr.lower post).
  - intros emotions. apply step_class.
Qed.

(** ** [get_current_user] *)

Lemma cut_at_space_app a b :
  PyStr.cut_at_space a = None ->
  PyStr.cut_at_space (a +:+ " " +:+ b) = Some (a, b).
Proof.
  induction a as [|c a IH]; [done|]. rewrite str_app_cons. simpl.
  destruct (Ascii.eqb c " "); [done|].
  destruct (PyStr.cut_at_space a) as [[x y]|]; [done|].
  intros _. by rewrite IH.
Qed.

Lemma lower_char_space c : PyStr.lower_char c = " "%char -> c = " "%char.
Proof.
  destruct c as [[] [] [] [] [] [] [] []]; vm_compute; congruence.
Qed.

Lemma lower_no_space a :
  PyStr.cut_at_space (PyStr.lower a) = None -> PyStr.cut_at_space a = None.
Proof.
  induction a as [|c a IH]; [done|]. simpl.
  destruct (Ascii.eqb_spec c " ") as [->|Hc]; [done|].
  destruct (Ascii.eqb_spec (PyStr.lower_char c) " ") as [H|_]; [done|].
  destruct (PyStr.cut_at_space (PyStr.lower a)) as [[x y]|]; [done|].
  intros _. by rewrite IH.
Qed.

Lemma lower_app_inv a : forall s b,
  PyStr.lower s = a +:+ b ->
  exists a' b', s = a' +:+ b' /\ PyStr.lower a' = a /\ PyStr.lower b' = b.
Proof.
  induction a as [|c a IH]; intros s b H.
  - by exists EmptyString, s.
  - destruct s as [|d s]; [done|]. rewrite str_app_cons in H. simpl in H.
    injection H as Hc Hs. destruct (IH _ _ Hs) as (a' & b' & -> & Ha & Hb).
    exists (String d a'), b'. simpl. by rewrite Hc, Ha.
Qed.

Lemma bearer_header auth :
  PyStr.startswith (PyStr.lower auth) "bearer " = true ->
  exists scheme token,
    auth = scheme +:+ " " +:+ token /\ PyStr.lower scheme = "bearer".
Proof.
  unfold PyStr.startswith.
  destruct (Silence.strip_prefix _ _) as [r|] eqn:E; [|done]. intros _.
  apply strip_prefix_spec in E.
  change ("bearer " +:+ r) with ("bearer" +:+ (" " +:+ r)) in E.
  apply lower_app_inv in E as (scheme & rest & -> & Hs & Hr).
  destruct rest as [|c token]; [done|]. simpl in Hr. injection Hr as Hc _.
  apply lower_char_space in Hc as ->. by exists scheme, token.
Qed.

Lemma bearer_token scheme token :
  PyStr.lower scheme = "bearer" ->
  PyStr.startswith (PyStr.lower (scheme +:+ " " +:+ token)) "bearer " = true /\
  PyStr.split_space_1 (scheme +:+ " " +:+ token) !! 1%nat = Some token.
Proof.
  intros Hs. split.
  - rewrite lower_app, Hs. done.
  - unfold PyStr.split_space_1. rewrite cut_at_space_app; [done|].
    apply lower_no_space. by rewrite Hs.
Qed.

Lemma get_current_user_bearer {J} cfg
    (get : Supabase.Request -> pyexn + Supabase.Response J) scheme token :
  PyStr.lower scheme = "bearer" ->
  Main.get_current_user cfg get (Some (scheme +:+ " " +:+ token)) =
    ([auth_request cfg token],
     match (Supabase.get_user_from_token cfg get token).2 with
     | inr user => inr user
     | inl _ => inl (HTTPException 401 "Invalid or expired token")
     end).
Proof.
  intros Hs. destruct (bearer_token scheme token Hs) as [Hst Hsp].
  unfold Main.get_current_user. simpl default. rewrite Hst, Hsp.
  assert (Supabase.truthy (Some (scheme +:+ " " +:+ token)) = true) as ->.
  { destruct scheme; [done|]. by rewrite str_app_cons. }
  done.
Qed.




(** ** [get_supabase] *)

Lemma get_supabase_cached {C} cfg
    (create_client : option string -> option string -> pyexn + C) c :
  Supabase.get_supabase cfg create_client (Some c) = (Some c, inr c).
Proof. done. Qed.

Lemma session_cached {C} (c : C) calls :
  Supabase.session (Some c) calls = map (fun _ => inr c) calls.
Proof.
  induction calls as [|[cfg create] calls IH]; [done|]. simpl. by rewrite IH.
Qed.

(** X19: the Supabase client is created at most once.  While none is held,
    a call with the URL or the key unset or empty raises the RuntimeError
    without calling [create_client] and holds nothing afterwards; a call
    that returns a client holds it afterwards, and from then on every call
    of a session returns that same client, whatever the settings and the
    constructor are by then. *)
Theorem supabase_client_is_created_once {C} (cfg : Supabase.Config)
    (create_client : option string -> option string -> pyexn + C)
    (_client : option C) :
  let call := Supabase.get_supabase cfg create_client _client in
  (_client = None ->
   Supabase.truthy (Supabase._SUPABASE_URL cfg) = false \/
   Supabase.truthy (Supabase._SUPABASE_ANON_KEY cfg) = false ->
   call = (None, inl (Builtin (RuntimeError
             "Missing SUPABASE_URL or SUPABASE_ANON_KEY env vars")))) /\
  (forall e, call.2 = inl e -> call.1 = None /\ _client = None) /\
  (forall c, call.2 = inr c ->
     call.1 = Some c /\
     (_client = None ->
      create_client (Supabase._SUPABASE_URL cfg)
                    (Supabase._SUPABASE_ANON_KEY cfg) = inr c) /\
     forall calls, Supabase.session call.1 calls = map (fun _ => inr c) calls).
Proof.
  intros call. subst call. unfold Supabase.get_supabase.
  destruct _client as [c0|].
  - simpl. split; [done|]. split; [done|].
    intros c [= <-]. split; [done|]. split; [done|]. apply session_cached.
  - destruct (Supabase.truthy (Supabase._SUPABASE_URL cfg)) eqn:Hu;
      destruct (Supabase.truthy (Supabase._SUPABASE_ANON_KEY cfg)) eqn:Hk; simpl.
    2-4: by (split; [done|]; split; [done|]).
    split; [by intros _ [?|?]|].
    destruct (create_client _ _) as [e0|c0]; simpl.
    + split; [done|]. done.
    + split; [done|]. intros c [= <-]. split; [done|]. split; [done|].
      apply session_cached.
Qed.

(** ** The body of [_probe_duration] *)

Lemma not_video s :
  Probe.codec_type s <> Some "video" -> Probe.is_video s = false.
Proof.
  unfold Probe.is_video. destruct (Probe.codec_type s) as [t|]; [|done].
  destruct (String.eqb_spec t "video") as [->|]; done.
Qed.

Lemma scan_skip to_float probe pre rest :
  Forall (fun s => Probe.is_video s = false) pre ->
  Probe.scan to_float probe (pre ++ rest) = Probe.scan to_float probe rest.
Proof.
  induction 1 as [|s pre Hs _ IH]; [done|]. simpl. by rewrite Hs.
Qed.

(** X20: the duration is taken from the first video stream and from no
    other stream.  When that stream carries a non-empty duration the
    result is its conversion, whatever the streams before and after it
    hold and even when the probe has no "format" entry at all; when it
    carries none, or an empty one, the result is the container's duration,
    also when a later video stream has a duration of its own. *)
Theorem probe_duration_reads_first_video_stream
    (to_float : string -> pyexn + Q)
    (pre post : list Probe.Stream) (v : Probe.Stream)
    (fmt : option Probe.Format) :
  Forall (fun s => Probe.codec_type s <> Some "video") pre ->
  Probe.codec_type v = Some "video" ->
  let probe := Probe.mkProbed (Some (pre ++ v :: post)) fmt in
  (forall d, Probe.duration v = Some d -> d <> EmptyString ->
     Probe.duration_from to_float probe = to_float d) /\
  (Probe.duration v = None \/ Probe.duration v = Some EmptyString ->
     Probe.duration_from to_float probe =
       match Probe.container_duration probe with
       | inl e => inl e
       | inr d => to_float d
       end).
Proof.
  intros Hpre Hv probe. subst probe. unfold Probe.duration_from. simpl.
  rewrite scan_skip.
  2:{ eapply Forall_impl; [exact Hpre|]. apply not_video. }
  simpl. unfold Probe.is_video. rewrite Hv. simpl. split.
  - intros d -> Hd. by destruct d.
  - by intros [->| ->].
Qed.

Lemma probe_duration_reads_first_video_stream_witness :
  let probe :=
    Probe.mkProbed
      (Some ([Probe.mkStream (Some "audio") (Some "9.5")] ++
             Probe.mkStream (Some "video") (Some "12.25") ::
             [Probe.mkStream (Some "video") (Some "3")]))
      None in
  (forall d, Some "12.25" = Some d -> d <> EmptyString ->
     Probe.duration_from example_to_float probe = example_to_float d) /\
  (Some "12.25" = None \/ Some "12.25" = Some EmptyString ->
     Probe.duration_from example_to_float probe =
       match Probe.container_duration probe with
       | inl e => inl e
       | inr d => example_to_float d
       end).
Proof.
  apply (probe_duration_reads_first_video_stream example_to_float
           [Probe.mkStream (Some "audio") (Some "9.5")]
           [Probe.mkStream (Some "video") (Some "3")]
           (Probe.mkStream (Some "video") (Some "12.25")) None).
  - repeat constructor. simpl. discriminate.
  - reflexivity.
Defined.

(** X21: a file without a video stream gets the container's duration: the
    durations of its streams are never read, and a probe without a
    "format" entry, or without a duration under it, raises the KeyError of
    the missing key. *)
Theorem probe_duration_without_video
    (to_float : string -> pyexn + Q) (ss : list Probe.Stream)
    (fmt : option Probe.Format) :
  Forall (fun s => Probe.codec_type s <> Some "video") ss ->
  let probe := Probe.mkProbed (Some ss) fmt in
  (forall d, fmt = Some (Probe.mkFormat (Some d)) ->
     Probe.duration_from to_float probe = to_float d) /\
  (fmt = None ->
     Probe.duration_from to_float probe = inl (KeyError "format")) /\
  (fmt = Some (Probe.mkFormat None) ->
     Probe.duration_from to_float probe = inl (KeyError "duration")).
Proof.
  intros Hss probe. subst probe. unfold Probe.duration_from. simpl.
  rewrite <- (app_nil_r ss). rewrite scan_skip.
  2:{ eapply Forall_impl; [exact Hss|]. apply not_video. }
  simpl. unfold Probe.container_duration. simpl.
  split; [by intros d ->|]. split; by intros ->.
Qed.

Lemma probe_duration_without_video_witness :
  let probe :=
    Probe.mkProbed (Some [Probe.mkStream (Some "audio") (Some "9.5")])
                   (Some (Probe.mkFormat (Some "10.0"))) in
  (forall d, Some (Probe.mkFormat (Some "10.0")) = Some (Probe.mkFormat (Some d)) ->
     Probe.duration_from example_to_float probe = example_to_float d) /\
  (Some (Probe.mkFormat (Some "10.0")) = None ->
     Probe.duration_from example_to_float probe = inl (KeyError "format")) /\
  (Some (Probe.mkFormat (Some "10.0")) = Some (Probe.mkFormat None) ->
     Probe.duration_from example_to_float probe = inl (KeyError "duration")).
Proof.
  apply (probe_duration_without_video example_to_float
           [Probe.mkStream (Some "audio") (Some "9.5")]
           (Some (Probe.mkFormat (Some "10.0")))).
  repeat constructor. simpl. discriminate.
Defined.
